(** * CSV geolocator: candidate generation and cached resolution

    A shallow embedding of [CSVGeolocator._geolocate] (src/CSV_geolocator.py)
    and of the row loop of [geolocate_csv] that drives it.

    - Python [str] is [string]; a tuple or list of snippets is [list string].
    - [self.discovered_addrs] (a dict) is a [gmap string (float * float)];
      [self.no_result_list] (a list used with [in] and [append]) is a
      [list string], appended at its end.
    - Latitudes and longitudes are binary64 floats ([float('nan')] is [nan]).
    - The googlemaps client is an external service: a state transformer
      [geocode] over an abstract [world], which may answer with a list of
      locations or raise.  The model additionally logs every query it sends.
    - Python exceptions are explicit outcomes. *)

From Stdlib Require Import Floats.PrimFloat Strings.Ascii.
From stdpp Require Import gmap strings list sorting.

Local Open Scope string_scope.
Local Open Scope nat_scope.

(** ** Candidate generation (lines 115-125) *)

(** [itertools.combinations(l, r)]: the [r]-length subsequences of [l], in
    lexicographic order of the positions they are taken from. *)
Fixpoint combinations {A} (l : list A) (r : nat) : list (list A) :=
  match r, l with
  | 0, _ => [[]]
  | S _, [] => []
  | S r', x :: xs => (cons x <$> combinations xs r') ++ combinations xs r
  end.

(** [l.index(x)]: position of the first element equal to [x]; [None] stands
    for the [ValueError] raised when there is none. *)
Fixpoint index (x : string) (l : list string) : option nat :=
  match l with
  | [] => None
  | y :: ys => if decide (x = y) then Some 0 else S <$> index x ys
  end.

(** [min(l)] and [max(l)] on a list of integers; [None] stands for the
    [ValueError] raised on an empty list. *)
Definition py_min (l : list nat) : option nat :=
  match l with
  | [] => None
  | x :: xs => Some (foldl Nat.min x xs)
  end.

Definition py_max (l : list nat) : option nat :=
  match l with
  | [] => None
  | x :: xs => Some (foldl Nat.max x xs)
  end.

(** The sort key of line 122:
    [(min([addr_snips.index(x) for x in snips]),
      max([addr_snips.index(x) for x in snips]))]. *)
Definition sort_key (addr_snips snips : list string) : option (nat * nat) :=
  idxs ← mapM (λ x, index x addr_snips) snips;
  lo ← py_min idxs;
  hi ← py_max idxs;
  Some (lo, hi).

(** Python compares the key tuples lexicographically. *)
Definition key_le (k1 k2 : nat * nat) : bool :=
  (k1.1 <? k2.1) || ((k1.1 =? k2.1) && (k1.2 <=? k2.2)).

(** [list.sort(key=...)] computes every key once, then sorts stably.  Any
    stable sort yields the same list; insertion from the right is one. *)
Fixpoint insert_keyed {A} (kx : (nat * nat) * A) (l : list ((nat * nat) * A))
  : list ((nat * nat) * A) :=
  match l with
  | [] => [kx]
  | ky :: l' =>
      if key_le kx.1 ky.1 then kx :: ky :: l' else ky :: insert_keyed kx l'
  end.

Definition sort_keyed {A} (l : list ((nat * nat) * A)) : list ((nat * nat) * A) :=
  foldr insert_keyed [] l.

(** Lines 120-121: [for depth in range(search_depth):
    composed_addresses += itertools.combinations(addr_snips, depth + 1)]. *)
Definition all_combinations (search_depth : Z) (addr_snips : list string)
  : list (list string) :=
  mjoin ((λ depth, combinations addr_snips (S depth)) <$> seq 0 (Z.to_nat search_depth)).

(** Lines 122-123: the tuples after the sort. *)
Definition sorted_combinations (search_depth : Z) (addr_snips : list string)
  : option (list (list string)) :=
  let combos := all_combinations search_depth addr_snips in
  keys ← mapM (sort_key addr_snips) combos;
  Some ((sort_keyed (zip keys combos)).*2).

(** Line 125: every tuple joined with [", "]. *)
Definition composed_addresses (search_depth : Z) (addr_snips : list string)
  : option (list string) :=
  fmap (M:=option) (fmap (M:=list) (String.concat ", "))
    (sorted_combinations search_depth addr_snips).

(** ** Configuration, provider and caches *)

(** [search_options["search_bounds"]]:
    [{latitude: [ne, sw], longitude: [ne, sw]}]. *)
Record bounds_option := {
  latitude : float * float;
  longitude : float * float
}.

(** The keys of [self.search_options] that [_geolocate] reads;
    [search_tld] and [search_bounds] may be absent. *)
Record search_options := {
  search_depth : Z;
  search_tld : option string;
  search_bounds : option bounds_option
}.

(** The keyword arguments of the provider call (lines 145-155). *)
Record gmaps_bounds := {
  northeast : float * float;
  southwest : float * float
}.

Record gmaps_kwargs := {
  region : option string;
  bounds : option gmaps_bounds
}.

Definition build_kwargs (opts : search_options) : gmaps_kwargs :=
  {| region := search_tld opts;
     bounds :=
       (λ b, {| northeast := ((latitude b).1, (longitude b).1);
                southwest := ((latitude b).2, (longitude b).2) |})
       <$> search_bounds opts |}.

(** [geocode_result[0]['geometry']['location']]. *)
Record location := { lat : float; lng : float }.

(** What a provider call does: it returns a list of locations, possibly
    empty, or raises. *)
Inductive response :=
  | Results (locs : list location)
  | ApiError (msg : string).

Inductive exn :=
  | UnboundLocalError (var : string)
  | ValueError
  | GeocodeError (msg : string).

(** [return lat, lng, warnings], or an exception leaving [_geolocate]. *)
Inductive outcome :=
  | Returned (lat lng : float) (warnings : string)
  | Raised (e : exn).

Definition FIDELITY_WARNING : string :=
  "WARNING: Using fallbacks, loss of fidelity!".

Definition no_result_warning (attempted_address : string) : string :=
  "No result found for '" +:+ attempted_address +:+ "'; ".

(** Line 131: [attempt_index > 2 ** (len(addr_snips) - 1)].  For an empty
    list Python computes [2 ** -1 = 0.5]. *)
Definition past_threshold (n attempt_index : nat) : bool :=
  match n with
  | 0 => 0 <? attempt_index
  | S n' => 2 ^ n' <? attempt_index
  end.

(** Lines 131-132: [if ...: warnings += "WARNING: ..."]. *)
Definition warn_fallback (n attempt_index : nat) (warnings : string) : string :=
  if past_threshold n attempt_index then warnings +:+ FIDELITY_WARNING
  else warnings.

Section Geolocator.

(** The external geocoding service. *)
Variable world : Type.
Variable geocode : string → gmaps_kwargs → world → response * world.

(** The fields of [self] that [_geolocate] reads and writes, and the
    log of the queries sent to the provider. *)
Record geolocator := {
  discovered_addrs : gmap string (float * float);
  no_result_list : list string;
  gmaps_client : world;
  queries : list string
}.

Definition called (self : geolocator) (addr : string) (w : world) : geolocator :=
  {| discovered_addrs := discovered_addrs self;
     no_result_list := no_result_list self;
     gmaps_client := w;
     queries := queries self ++ [addr] |}.

(** [self.discovered_addrs[addr] = (lat, lng)]. *)
Definition record_success (self : geolocator) (addr : string) (c : float * float)
  : geolocator :=
  {| discovered_addrs := <[addr := c]> (discovered_addrs self);
     no_result_list := no_result_list self;
     gmaps_client := gmaps_client self;
     queries := queries self |}.

(** [self.no_result_list.append(addr)]. *)
Definition record_failure (self : geolocator) (addr : string) : geolocator :=
  {| discovered_addrs := discovered_addrs self;
     no_result_list := no_result_list self ++ [addr];
     gmaps_client := gmaps_client self;
     queries := queries self |}.

(** One pass through the body of the [for] loop (lines 130-168): either the
    loop goes on, or [_geolocate] is left. *)
Inductive step :=
  | Continue (self : geolocator) (warnings : string)
  | Break (r : outcome) (self : geolocator).

Definition attempt (opts : search_options) (n attempt_index : nat)
    (attempted_address : string) (self : geolocator) (warnings : string) : step :=
  let warnings := warn_fallback n attempt_index warnings in
  match discovered_addrs self !! attempted_address with
  | Some (lat, lng) => Break (Returned lat lng warnings) self
  | None =>
      if bool_decide (attempted_address ∈ no_result_list self) then
        Continue self warnings
      else
        let '(geocode_result, w) :=
          geocode attempted_address (build_kwargs opts) (gmaps_client self) in
        let self := called self attempted_address w in
        match geocode_result with
        | ApiError msg => Break (Raised (GeocodeError msg)) self
        | Results (loc :: _) =>
            Break (Returned (lat loc) (lng loc) warnings)
                  (record_success self attempted_address (lat loc, lng loc))
        | Results [] =>
            Continue (record_failure self attempted_address)
                     (warnings +:+ no_result_warning attempted_address)
        end
  end.

(** The [for] loop over [enumerate(composed_addresses)] from position
    [attempt_index] on, and the code after it (lines 169-172).
    [attempted_address] is the loop variable as the previous pass left it:
    [None] while it is unbound. *)
Fixpoint attempts (opts : search_options) (n attempt_index : nat)
    (addrs : list string) (attempted_address : option string)
    (self : geolocator) (warnings : string) : outcome * geolocator :=
  match addrs with
  | [] =>
      let warnings := warnings +:+ "Search Failed!;" in
      match attempted_address with
      | None => (Raised (UnboundLocalError "attempted_address"), self)
      | Some a => (Returned nan nan warnings, record_failure self a)
      end
  | a :: rest =>
      match attempt opts n attempt_index a self warnings with
      | Continue self warnings =>
          attempts opts n (S attempt_index) rest (Some a) self warnings
      | Break r self => (r, self)
      end
  end.

Definition _geolocate (opts : search_options) (addr_snips : list string)
    (self : geolocator) : outcome * geolocator :=
  match composed_addresses (search_depth opts) addr_snips with
  | None => (Raised ValueError, self)
  | Some addrs => attempts opts (length addr_snips) 0 addrs None self ""
  end.

(** ** The row loop of [geolocate_csv] (lines 66-86)

    A row is given by the snippets extracted from it (lines 70-75).  The
    three cells added to the row are ['-'], ['-'] and the warnings when a
    coordinate is NaN, the coordinates and the warnings otherwise.  An
    exception leaving [_geolocate] is not caught: the rows written so far
    stay written and the remaining ones are not processed. *)
Inductive cell := Dash | Num (f : float).

Definition out_cells (lat lng : float) (warnings : string) : cell * cell * string :=
  if is_nan lat || is_nan lng then (Dash, Dash, warnings)
  else (Num lat, Num lng, warnings).

Fixpoint geolocate_rows (opts : search_options) (rows : list (list string))
    (self : geolocator) : list (cell * cell * string) * option exn * geolocator :=
  match rows with
  | [] => ([], None, self)
  | addr_snips :: rows' =>
      match _geolocate opts addr_snips self with
      | (Raised e, self) => ([], Some e, self)
      | (Returned lat lng warnings, self) =>
          let '(written, e, self) := geolocate_rows opts rows' self in
          (out_cells lat lng warnings :: written, e, self)
      end
  end.

(** ** Vocabulary of the specification: reaching a candidate *)

(** The loop goes through all of [addrs] without leaving [_geolocate]:
    the cache and the warnings it then holds. *)
Fixpoint passes (opts : search_options) (n attempt_index : nat)
    (addrs : list string) (self : geolocator) (warnings : string)
    : option (geolocator * string) :=
  match addrs with
  | [] => Some (self, warnings)
  | a :: rest =>
      match attempt opts n attempt_index a self warnings with
      | Continue self warnings => passes opts n (S attempt_index) rest self warnings
      | Break _ _ => None
      end
  end.

(** [_geolocate opts addr_snips self0] reaches the candidate [a] at position
    [i] of its sequence, holding [self] and [warnings] at the top of the
    loop body. *)
Definition reaches (opts : search_options) (addr_snips : list string)
    (self0 : geolocator) (i : nat) (a : string)
    (self : geolocator) (warnings : string) : Prop :=
  ∃ addrs,
    composed_addresses (search_depth opts) addr_snips = Some addrs
    ∧ addrs !! i = Some a
    ∧ passes opts (length addr_snips) 0 (take i addrs) self0 "" = Some (self, warnings).

(** Both caches and the query log of [self'] extend those of [self]. *)
Definition grows (self self' : geolocator) : Prop :=
  discovered_addrs self ⊆ discovered_addrs self'
  ∧ no_result_list self `prefix_of` no_result_list self'
  ∧ queries self `prefix_of` queries self'.

(** The warnings a pass through the loop body leaves, when it does not
    raise. *)
Definition step_warnings (s : step) : option string :=
  match s with
  | Continue _ warnings => Some warnings
  | Break (Returned _ _ warnings) _ => Some warnings
  | Break (Raised _) _ => None
  end.

End Geolocator.

Arguments discovered_addrs {world} _.
Arguments no_result_list {world} _.
Arguments gmaps_client {world} _.
Arguments queries {world} _.
Arguments Continue {world} _ _.
Arguments Break {world} _ _.
Arguments attempt {world} geocode opts n attempt_index attempted_address self warnings.
Arguments attempts {world} geocode opts n attempt_index addrs attempted_address self warnings.
Arguments passes {world} geocode opts n attempt_index addrs self warnings.
Arguments reaches {world} geocode opts addr_snips self0 i a self warnings.
Arguments _geolocate {world} geocode opts addr_snips self.
Arguments geolocate_rows {world} geocode opts rows self.
Arguments record_failure {world} self addr.
Arguments record_success {world} self addr c.
Arguments called {world} self addr w.
Arguments step_warnings {world} s.
Arguments grows {world} self self'.

(** The loop variable after a run over [addrs]. *)
Definition last_seen (attempted_address : option string) (addrs : list string)
  : option string :=
  match last addrs with
  | Some a => Some a
  | None => attempted_address
  end.

(** The number of positions of [s] at which [sub] occurs. *)
Fixpoint occurrences (sub s : string) : nat :=
  (if String.prefix sub s then 1 else 0)
  + match s with
    | EmptyString => 0
    | String _ s' => occurrences sub s'
    end.

(** The snippet contains a comma. *)
Fixpoint has_comma (s : string) : bool :=
  match s with
  | EmptyString => false
  | String c s' => Ascii.eqb c ","%char || has_comma s'
  end.

(** *** Sample providers and caches *)

Definition opts_depth (d : Z) : search_options :=
  {| search_depth := d; search_tld := None; search_bounds := None |}.

(** A provider that never finds anything. *)
Definition no_results (_ : string) (_ : gmaps_kwargs) (w : unit) : response * unit :=
  (Results [], w).

(** A provider that only knows the address [addr]. *)
Definition only_knows (addr : string) (loc : location)
    (a : string) (_ : gmaps_kwargs) (w : unit) : response * unit :=
  (if decide (a = addr) then Results [loc] else Results [], w).

Definition fresh : geolocator unit :=
  {| discovered_addrs := ∅; no_result_list := []; gmaps_client := (); queries := [] |}.

Definition paris : location := {| lat := 48.5%float; lng := 2.25%float |}.

(** A cache that holds a resolution of ["fokino"]. *)
Definition fokino_cached : geolocator unit :=
  record_success fresh "fokino" (48.5%float, 2.25%float).

(** A cache in which ["a, b"] is a known failure. *)
Definition ab_failed : geolocator unit := record_failure fresh "a, b".

(** A cache in which the first five candidates of [["a"; "b"; "c"]] are known
    failures. *)
Definition five_failed : geolocator unit :=
  {| discovered_addrs := ∅;
     no_result_list := ["a"; "a, b"; "a, c"; "a, b, c"; "b"];
     gmaps_client := ();
     queries := [] |}.

(** The warnings of the row [["a"; "b"; "c"]] at depth 3 when nothing is
    found. *)
Definition abc_all_failed : string :=
  "No result found for 'a'; No result found for 'a, b'; "
  +:+ "No result found for 'a, c'; No result found for 'a, b, c'; "
  +:+ "No result found for 'b'; "
  +:+ "WARNING: Using fallbacks, loss of fidelity!No result found for 'b, c'; "
  +:+ "WARNING: Using fallbacks, loss of fidelity!No result found for 'c'; "
  +:+ "Search Failed!;".

Definition keyed_le {A} (p q : (nat * nat) * A) : Prop := key_le p.1 q.1 = true.

(** ** Vocabulary of the specification *)

(** The smallest and the largest original index of the members of a subset
    [t] of [snips], in the words of the specification. *)
Definition is_min_index (snips t : list string) (m : nat) : Prop :=
  (∃ x, x ∈ t ∧ snips !! m = Some x)
  ∧ ∀ x j, x ∈ t → snips !! j = Some x → m ≤ j.

Definition is_max_index (snips t : list string) (m : nat) : Prop :=
  (∃ x, x ∈ t ∧ snips !! m = Some x)
  ∧ ∀ x j, x ∈ t → snips !! j = Some x → j ≤ m.

(** [t1] is tried no later than [t2]: smaller [minIndex] first, and for
    equal [minIndex] the smaller [maxIndex] first. *)
Definition priority_le (snips t1 t2 : list string) : Prop :=
  ∃ m1 M1 m2 M2,
    is_min_index snips t1 m1 ∧ is_max_index snips t1 M1
    ∧ is_min_index snips t2 m2 ∧ is_max_index snips t2 M2
    ∧ (m1 < m2 ∨ (m1 = m2 ∧ M1 ≤ M2)).

(** The number of subsequences of [l] of length below [k], as
    [combinations] lists them. *)
Fixpoint count_combinations {A} (l : list A) (k : nat) : nat :=
  match k with
  | 0 => 0
  | S k' => count_combinations l k' + length (combinations l k')
  end.

(** ** The warnings of a row, candidate by candidate *)

(** What happens to a candidate that is evaluated: it is a key of the
    positive cache, it is in the negative cache, the provider is asked and
    finds nothing, or the provider is asked and finds it. *)
Inductive verdict := Cached | KnownFailure | NotFound | Found.

(** The row is resolved at that candidate. *)
Definition resolves (v : verdict) : bool :=
  match v with
  | Cached | Found => true
  | KnownFailure | NotFound => false
  end.

(** The text a candidate itself adds to the warnings. *)
Definition verdict_text (a : string) (v : verdict) : string :=
  match v with
  | NotFound => no_result_warning a
  | Cached | KnownFailure | Found => ""
  end.

(** The warnings returned: for each candidate evaluated, in order, the
    fallback text when its position exceeds [2^(N-1)], then its
    "No result found" text when the provider was asked and found nothing;
    and ["Search Failed!;"] at the end when no candidate resolved the row. *)
Fixpoint expected_warnings (n i : nat) (evaluated : list (string * verdict))
  : string :=
  match evaluated with
  | [] => "Search Failed!;"
  | (a, v) :: rest =>
      warn_fallback n i "" +:+ verdict_text a v
      +:+ (if resolves v then "" else expected_warnings n (S i) rest)
  end.

(** The verdict [v] is what the caches and the provider give for the
    candidate [a] when it is reached with [self]. *)
Definition happened {world}
    (geocode : string → gmaps_kwargs → world → response * world)
    (opts : search_options) (v : verdict) (a : string)
    (self : geolocator world) : Prop :=
  match v with
  | Cached => is_Some (discovered_addrs self !! a)
  | KnownFailure =>
      discovered_addrs self !! a = None ∧ a ∈ no_result_list self
  | NotFound =>
      discovered_addrs self !! a = None ∧ (a ∉ no_result_list self)
      ∧ (geocode a (build_kwargs opts) (gmaps_client self)).1 = Results []
  | Found =>
      discovered_addrs self !! a = None ∧ (a ∉ no_result_list self)
      ∧ ∃ loc locs,
          (geocode a (build_kwargs opts) (gmaps_client self)).1 = Results (loc :: locs)
  end.

(** ** Duplicates of the negative cache, and exhausted rows *)

(** The number of entries of [l] that occur again further on in [l]. *)
Fixpoint duplicates (l : list string) : nat :=
  match l with
  | [] => 0
  | x :: l' => (if bool_decide (x ∈ l') then 1 else 0) + duplicates l'
  end.

(** The row is exhausted: it has candidates and the loop goes through all of
    them without leaving [_geolocate]. *)
Definition exhausted {world}
    (geocode : string → gmaps_kwargs → world → response * world)
    (opts : search_options) (addr_snips : list string)
    (self : geolocator world) : bool :=
  match composed_addresses (search_depth opts) addr_snips with
  | Some (a :: addrs) =>
      bool_decide (is_Some (passes geocode opts (length addr_snips) 0
                              (a :: addrs) self ""))
  | _ => false
  end.

(** The number of exhausted rows in a run of the row loop. *)
Fixpoint exhausted_rows {world}
    (geocode : string → gmaps_kwargs → world → response * world)
    (opts : search_options) (rows : list (list string))
    (self : geolocator world) : nat :=
  match rows with
  | [] => 0
  | addr_snips :: rows' =>
      match _geolocate geocode opts addr_snips self with
      | (Raised _, _) => 0
      | (Returned _ _ _, self') =>
          (if exhausted geocode opts addr_snips self then 1 else 0)
          + exhausted_rows geocode opts rows' self'
      end
  end.

(** ** The rows of the CSV file (lines 66-86) *)

(** A value of a row as [csv.DictReader] hands it over and as line 79 or 83
    updates it: text, [None] (a field the line was too short for), the list
    of surplus fields (under the key [None]), or a coordinate. *)
Inductive pyval :=
  | PyStr (s : string)
  | PyNone
  | PyList (l : list string)
  | PyFloat (f : float).

(** What can leave the body of the row loop: [row[key]] on an absent column,
    [.strip()] on a value that is not text, or an exception of
    [_geolocate]. *)
Inductive row_exn :=
  | KeyError (key : string)
  | AttributeError (attr : string)
  | FromGeolocate (e : exn).

Definition EMPTY_COLUMN_CHARACTERS : list string := ["-"; " "; ""].

Section Rows.

(** Python's [str.strip] and [str.lower]. *)
Variable strip lower : string → string.
Variable world : Type.
Variable geocode : string → gmaps_kwargs → world → response * world.

(** Lines 72-75, from the column [key] on: [addr_snips] is the list built so
    far. *)
Fixpoint collect_snips (csv_column_search_order : list string)
    (row : gmap (option string) pyval) (addr_snips : list string)
    : row_exn + list string :=
  match csv_column_search_order with
  | [] => inr addr_snips
  | key :: keys =>
      match row !! Some key with
      | None => inl (KeyError key)
      | Some (PyStr s) =>
          let addr_snip := strip s in
          if bool_decide (addr_snip ∈ EMPTY_COLUMN_CHARACTERS) then
            collect_snips keys row addr_snips
          else
            collect_snips keys row (addr_snips ++ [lower addr_snip])
      | Some _ => inl (AttributeError "strip")
      end
  end.

(** Lines 78-85: the three cells put into the row. *)
Definition update_row (row : gmap (option string) pyval)
    (lat lng : float) (warnings : string) : gmap (option string) pyval :=
  if is_nan lat || is_nan lng then
    <[Some "warnings" := PyStr warnings]>
      (<[Some "lng" := PyStr "-"]> (<[Some "lat" := PyStr "-"]> row))
  else
    <[Some "warnings" := PyStr warnings]>
      (<[Some "lng" := PyFloat lng]> (<[Some "lat" := PyFloat lat]> row)).

(** The body of the row loop (lines 67-86): the row handed to the writer, or
    the exception that leaves the loop. *)
Definition geolocate_row (opts : search_options)
    (csv_column_search_order : list string)
    (row : gmap (option string) pyval) (self : geolocator world)
    : (row_exn + gmap (option string) pyval) * geolocator world :=
  let row := delete None row in
  match collect_snips csv_column_search_order row [] with
  | inl e => (inl e, self)
  | inr addr_snips =>
      match _geolocate geocode opts addr_snips self with
      | (Raised e, self) => (inl (FromGeolocate e), self)
      | (Returned lat lng warnings, self) =>
          (inr (update_row row lat lng warnings), self)
      end
  end.

(** The row loop of [geolocate_csv]: the rows written, the exception that
    ended the loop if any, and [self] at that point. *)
Fixpoint geolocate_csv (opts : search_options)
    (csv_column_search_order : list string)
    (rows : list (gmap (option string) pyval)) (self : geolocator world)
    : list (gmap (option string) pyval) * option row_exn * geolocator world :=
  match rows with
  | [] => ([], None, self)
  | row :: rows' =>
      match geolocate_row opts csv_column_search_order row self with
      | (inl e, self) => ([], Some e, self)
      | (inr out_row, self) =>
          let '(written, e, self) :=
            geolocate_csv opts csv_column_search_order rows' self in
          (out_row :: written, e, self)
      end
  end.

End Rows.

Arguments geolocate_row strip lower {world} geocode opts csv_column_search_order row self.
Arguments geolocate_csv strip lower {world} geocode opts csv_column_search_order rows self.

(** *** Sample [strip] and [lower], on ASCII text *)

Definition is_space (c : ascii) : bool :=
  (nat_of_ascii c =? 32) || ((9 <=? nat_of_ascii c) && (nat_of_ascii c <=? 13)).

Fixpoint lstrip_ascii (s : string) : string :=
  match s with
  | EmptyString => EmptyString
  | String c s' => if is_space c then lstrip_ascii s' else s
  end.

Definition strip_ascii (s : string) : string :=
  String.rev (lstrip_ascii (String.rev (lstrip_ascii s))).

Definition lower_char (c : ascii) : ascii :=
  if (65 <=? nat_of_ascii c) && (nat_of_ascii c <=? 90)
  then ascii_of_nat (nat_of_ascii c + 32) else c.

Fixpoint lower_ascii (s : string) : string :=
  match s with
  | EmptyString => EmptyString
  | String c s' => String (lower_char c) (lower_ascii s')
  end.

(** A row of a file with the columns [city], [region] and [lat], and one
    surplus field. *)
Definition sample_row : gmap (option string) pyval :=
  <[None := PyList ["surplus"]]>
    (<[Some "lat" := PyStr "old"]>
       (<[Some "region" := PyStr " - "]>
          (<[Some "city" := PyStr " Fokino "]> ∅))).

(** No address is in both caches. *)
Definition caches_disjoint {world} (self : geolocator world) : Prop :=
  ∀ a, a ∈ no_result_list self → discovered_addrs self !! a = None.

(** ** Pure lemmas on the candidate generator *)

Example composed_abc :
  composed_addresses 3 ["a"; "b"; "c"]
  = Some ["a"; "a, b"; "a, c"; "a, b, c"; "b"; "b, c"; "c"].
Proof. vm_compute. reflexivity. Qed.

Lemma combinations_0 {A} (l : list A) : combinations l 0 = [[]].
Proof. by destruct l. Qed.

Lemma elem_of_combinations {A} (l t : list A) (r : nat) :
  t ∈ combinations l r ↔ t `sublist_of` l ∧ length t = r.
Proof.
  revert t r. induction l as [|x xs IH]; intros t r.
  - destruct r as [|r]; simpl.
    + rewrite list_elem_of_singleton, sublist_nil_r.
      split; [by intros ->|by intros [-> _]].
    + rewrite elem_of_nil, sublist_nil_r. split; [done|by intros [-> ?]].
  - destruct r as [|r]; simpl.
    + rewrite list_elem_of_singleton. split.
      * intros ->. split; [apply sublist_nil_l|done].
      * intros [_ Hlen]. by destruct t.
    + rewrite elem_of_app, list_elem_of_fmap, sublist_cons_r. split.
      * intros [(t' & -> & Ht')|Ht].
        -- apply IH in Ht' as [? <-]. split; [right; eauto|done].
        -- apply IH in Ht as [? ?]. split; [by left|done].
      * intros [[Ht|(t' & -> & Ht')] Hlen].
        -- right. by apply IH.
        -- left. exists t'. split; [done|]. apply IH. simpl in Hlen. by simplify_eq.
Qed.

Lemma NoDup_combinations {A} (l : list A) (r : nat) :
  NoDup l → NoDup (combinations l r).
Proof.
  revert r. induction l as [|x xs IH]; intros r Hl.
  - destruct r; simpl; [apply NoDup_singleton|constructor].
  - apply NoDup_cons in Hl as [Hx Hxs]. destruct r as [|r]; simpl.
    + apply NoDup_singleton.
    + apply NoDup_app. split_and!.
      * apply (NoDup_fmap_2 _). auto.
      * intros t (t' & -> & _)%list_elem_of_fmap [Hsub _]%elem_of_combinations.
        apply Hx. eapply sublist_subseteq; [done|]. by left.
      * auto.
Qed.

Lemma elem_of_all_combinations (D : Z) (snips t : list string) :
  t ∈ all_combinations D snips ↔
  t `sublist_of` snips ∧ 1 ≤ length t ∧ (Z.of_nat (length t) ≤ D)%Z.
Proof.
  unfold all_combinations. rewrite list_elem_of_join. split.
  - intros (c & Ht & (d & -> & Hd)%list_elem_of_fmap).
    apply elem_of_combinations in Ht as [? Hlen]. apply elem_of_seq in Hd.
    split; [done|lia].
  - intros (Hsub & H1 & HD). exists (combinations snips (length t)). split.
    + by apply elem_of_combinations.
    + apply list_elem_of_fmap. exists (pred (length t)). split.
      * f_equal. lia.
      * apply elem_of_seq. lia.
Qed.

Lemma NoDup_all_combinations (D : Z) (snips : list string) :
  NoDup snips → NoDup (all_combinations D snips).
Proof.
  intros Hnd. unfold all_combinations.
  generalize 0 as d0. induction (Z.to_nat D) as [|k IH]; intros d0; simpl.
  - constructor.
  - apply NoDup_app. split_and!.
    + by apply NoDup_combinations.
    + intros t [_ Hlen]%elem_of_combinations
        (c & Ht & (d & -> & Hd)%list_elem_of_fmap)%list_elem_of_join.
      apply elem_of_combinations in Ht as [_ Hlen']. apply elem_of_seq in Hd. lia.
    + apply IH.
Qed.

(** *** [index] *)

Lemma index_Some (x : string) (l : list string) :
  x ∈ l → ∃ i, index x l = Some i.
Proof.
  induction l as [|y ys IH]; [by intros ?%elem_of_nil|].
  intros Hx. simpl. case_decide; [eauto|].
  apply elem_of_cons in Hx as [?|Hx]; [done|].
  destruct (IH Hx) as [i ->]. eauto.
Qed.

Lemma index_first (x : string) (l : list string) (i : nat) :
  index x l = Some i → l !! i = Some x ∧ ∀ j, l !! j = Some x → i ≤ j.
Proof.
  revert i. induction l as [|y ys IH]; intros i; simpl; [done|].
  case_decide as Hxy.
  - intros [= <-]. subst. split; [done|]. lia.
  - destruct (index x ys) as [i'|]; [|done]. intros [= <-].
    destruct (IH i' eq_refl) as [Hl Hmin]. split; [done|].
    intros [|j] Hj; simpl in Hj; [congruence|]. apply Hmin in Hj. lia.
Qed.

Lemma index_NoDup (x : string) (l : list string) (i : nat) :
  NoDup l → l !! i = Some x → index x l = Some i.
Proof.
  intros Hnd Hi.
  destruct (index_Some x l) as [i' Hi']; [by eapply list_elem_of_lookup_2|].
  destruct (index_first _ _ _ Hi') as [Hl _].
  by rewrite (NoDup_lookup l i i' x Hnd Hi Hl).
Qed.

(** *** [min] and [max] *)

Lemma foldl_min_spec (x : nat) (xs : list nat) :
  foldl Nat.min x xs ∈ x :: xs ∧ ∀ y, y ∈ x :: xs → foldl Nat.min x xs ≤ y.
Proof.
  revert x. induction xs as [|z zs IH]; intros x; simpl.
  - split; [by left|]. intros y ->%list_elem_of_singleton. lia.
  - destruct (IH (x `min` z)) as [Hin Hle]. split.
    + apply elem_of_cons in Hin as [->|Hin].
      * destruct (Nat.min_spec x z) as [[_ ->]|[_ ->]]; [by left|right; by left].
      * by do 2 right.
    + intros y Hy. apply elem_of_cons in Hy as [->|Hy].
      * assert (H0 := Hle (x `min` z) ltac:(by left)). lia.
      * apply elem_of_cons in Hy as [->|Hy].
        -- assert (H0 := Hle (x `min` z) ltac:(by left)). lia.
        -- apply Hle. by right.
Qed.

Lemma foldl_max_spec (x : nat) (xs : list nat) :
  foldl Nat.max x xs ∈ x :: xs ∧ ∀ y, y ∈ x :: xs → y ≤ foldl Nat.max x xs.
Proof.
  revert x. induction xs as [|z zs IH]; intros x; simpl.
  - split; [by left|]. intros y ->%list_elem_of_singleton. lia.
  - destruct (IH (x `max` z)) as [Hin Hle]. split.
    + apply elem_of_cons in Hin as [->|Hin].
      * destruct (Nat.max_spec x z) as [[_ ->]|[_ ->]]; [right; by left|by left].
      * by do 2 right.
    + intros y Hy. apply elem_of_cons in Hy as [->|Hy].
      * assert (H0 := Hle (x `max` z) ltac:(by left)). lia.
      * apply elem_of_cons in Hy as [->|Hy].
        -- assert (H0 := Hle (x `max` z) ltac:(by left)). lia.
        -- apply Hle. by right.
Qed.

(** *** The sort key *)

Lemma sort_key_is_Some (snips t : list string) :
  t ⊆ snips → t ≠ [] → is_Some (sort_key snips t).
Proof.
  intros Hsub Hne. unfold sort_key.
  destruct (mapM (λ x, index x snips) t) as [idxs|] eqn:Hm; simpl.
  - apply mapM_Some, Forall2_length in Hm.
    destruct idxs as [|i idxs]; [by destruct t|]. simpl. eauto.
  - assert (is_Some (mapM (λ x, index x snips) t)) as [? ?]; [|congruence].
    apply mapM_is_Some, Forall_forall. intros x Hx. simpl.
    destruct (index_Some x snips) as [i Hi]; eauto.
Qed.

Lemma sort_key_spec (snips t : list string) (lo hi : nat) :
  NoDup snips → sort_key snips t = Some (lo, hi) →
  is_min_index snips t lo ∧ is_max_index snips t hi.
Proof.
  intros Hnd. unfold sort_key.
  destruct (mapM (λ x, index x snips) t) as [idxs|] eqn:Hm; simpl; [|done].
  apply mapM_Some in Hm.
  destruct idxs as [|i idxs]; simpl; [done|]. intros [= <- <-].
  destruct (foldl_min_spec i idxs) as [Hmin_in Hmin_le].
  destruct (foldl_max_spec i idxs) as [Hmax_in Hmax_le].
  assert (∀ k, k ∈ i :: idxs → ∃ x, x ∈ t ∧ snips !! k = Some x) as Hback.
  { intros k Hk. apply list_elem_of_lookup in Hk as [p Hp].
    destruct (Forall2_lookup_r _ _ _ _ _ Hm Hp) as (x & Hx & Hi).
    exists x. split; [by eapply list_elem_of_lookup_2|].
    by apply index_first in Hi as [? _]. }
  assert (∀ x j, x ∈ t → snips !! j = Some x → j ∈ i :: idxs) as Hforth.
  { intros x j Hx Hj. apply list_elem_of_lookup in Hx as [p Hp].
    destruct (Forall2_lookup_l _ _ _ _ _ Hm Hp) as (k & Hk & Hi).
    rewrite (index_NoDup _ _ _ Hnd Hj) in Hi. simplify_eq.
    by eapply list_elem_of_lookup_2. }
  split; (split; [by apply Hback|]); intros x j Hx Hj.
  - apply Hmin_le. eauto.
  - apply Hmax_le. eauto.
Qed.

(** *** The stable sort *)

Lemma key_le_total (k1 k2 : nat * nat) : key_le k1 k2 = false → key_le k2 k1 = true.
Proof.
  unfold key_le. rewrite orb_false_iff, andb_false_iff, orb_true_iff, andb_true_iff.
  rewrite !Nat.ltb_ge, !Nat.ltb_lt, !Nat.eqb_neq, !Nat.eqb_eq, !Nat.leb_gt, !Nat.leb_le. lia.
Qed.

Lemma key_le_trans (k1 k2 k3 : nat * nat) :
  key_le k1 k2 = true → key_le k2 k3 = true → key_le k1 k3 = true.
Proof.
  unfold key_le. rewrite !orb_true_iff, !andb_true_iff.
  rewrite !Nat.ltb_lt, !Nat.eqb_eq, !Nat.leb_le. lia.
Qed.

Lemma insert_keyed_Permutation {A} (kx : (nat * nat) * A) l :
  insert_keyed kx l ≡ₚ kx :: l.
Proof.
  induction l as [|ky l IH]; simpl; [done|].
  destruct (key_le kx.1 ky.1); [done|]. by rewrite IH, Permutation_swap.
Qed.

Lemma sort_keyed_Permutation {A} (l : list ((nat * nat) * A)) : sort_keyed l ≡ₚ l.
Proof.
  induction l as [|kx l IH]; simpl; [done|].
  by rewrite insert_keyed_Permutation, IH.
Qed.

Lemma insert_keyed_sorted {A} (kx : (nat * nat) * A) l :
  StronglySorted keyed_le l → StronglySorted keyed_le (insert_keyed kx l).
Proof.
  induction 1 as [|ky l Hl IH Hall]; simpl.
  - repeat constructor.
  - destruct (key_le kx.1 ky.1) eqn:Hle.
    + constructor; [by constructor|]. constructor; [done|].
      eapply Forall_impl; [done|]. intros kz Hz. by eapply key_le_trans.
    + constructor; [done|].
      rewrite insert_keyed_Permutation. constructor; [|done].
      by apply key_le_total.
Qed.

Lemma sort_keyed_sorted {A} (l : list ((nat * nat) * A)) :
  StronglySorted keyed_le (sort_keyed l).
Proof.
  induction l as [|kx l IH]; simpl; [constructor|]. by apply insert_keyed_sorted.
Qed.

Lemma StronglySorted_fmap_strong {A B} (R : relation A) (R' : relation B)
    (P : A → Prop) (f : A → B) (l : list A) :
  (∀ a b, P a → P b → R a b → R' (f a) (f b)) →
  Forall P l → StronglySorted R l → StronglySorted R' (f <$> l).
Proof.
  intros HR HP Hs. induction Hs as [|a l Hl IH Hall]; simpl; [constructor|].
  apply Forall_cons in HP as [Ha HP]. constructor; [by apply IH|].
  apply Forall_fmap, Forall_forall. intros b Hb. simpl.
  rewrite Forall_forall in Hall, HP. auto.
Qed.

(** *** The sorted tuples and the candidate strings *)

Lemma all_combinations_keys (D : Z) (snips : list string) :
  ∃ keys, mapM (sort_key snips) (all_combinations D snips) = Some keys.
Proof.
  apply (mapM_is_Some_2 (sort_key snips)), Forall_forall. intros t Ht. simpl.
  apply elem_of_all_combinations in Ht as (Hsub & Hlen & _).
  apply sort_key_is_Some; [by apply sublist_subseteq|].
  intros ->. simpl in Hlen. lia.
Qed.

Lemma sorted_combinations_spec (D : Z) (snips : list string) :
  ∃ tuples,
    sorted_combinations D snips = Some tuples
    ∧ tuples ≡ₚ all_combinations D snips
    ∧ (NoDup snips → StronglySorted (priority_le snips) tuples).
Proof.
  destruct (all_combinations_keys D snips) as [keys Hkeys].
  unfold sorted_combinations. rewrite Hkeys. simpl.
  eexists. split; [done|].
  apply mapM_Some in Hkeys. split.
  - rewrite sort_keyed_Permutation. rewrite snd_zip; [done|].
    apply Forall2_length in Hkeys. lia.
  - intros Hnd.
    apply (StronglySorted_fmap_strong keyed_le _
             (λ p, sort_key snips p.2 = Some p.1)).
    + intros [[m1 M1] t1] [[m2 M2] t2] H1 H2 Hle. simpl in *.
      apply (sort_key_spec _ _ _ _ Hnd) in H1 as [? ?].
      apply (sort_key_spec _ _ _ _ Hnd) in H2 as [? ?].
      exists m1, M1, m2, M2. split_and!; try done.
      unfold keyed_le, key_le in Hle. simpl in Hle.
      rewrite orb_true_iff, andb_true_iff in Hle.
      rewrite Nat.ltb_lt, Nat.eqb_eq, Nat.leb_le in Hle. lia.
    + rewrite sort_keyed_Permutation. apply Forall_forall.
      intros [k t] Hkt. simpl.
      apply list_elem_of_lookup in Hkt as [i Hi].
      apply lookup_zip_with_Some in Hi as (k' & t' & [= <- <-] & Hk & Ht).
      by destruct (Forall2_lookup_l _ _ _ _ _ Hkeys Ht) as (k'' & ? & ?); simplify_eq.
    + apply sort_keyed_sorted.
Qed.

Lemma composed_addresses_total (D : Z) (snips : list string) :
  ∃ tuples,
    composed_addresses D snips = Some (String.concat ", " <$> tuples)
    ∧ tuples ≡ₚ all_combinations D snips.
Proof.
  destruct (sorted_combinations_spec D snips) as (tuples & Hs & Hp & _).
  exists tuples. unfold composed_addresses. by rewrite Hs.
Qed.

Lemma composed_addresses_three (a b c : string) :
  a ≠ b → a ≠ c → b ≠ c →
  composed_addresses 3 [a; b; c]
  = Some [a; a +:+ ", " +:+ b; a +:+ ", " +:+ c; a +:+ ", " +:+ b +:+ ", " +:+ c;
          b; b +:+ ", " +:+ c; c].
Proof.
  intros Hab Hac Hbc. unfold composed_addresses, sorted_combinations, sort_key.
  simpl. repeat (case_decide; simplify_eq; simpl). done.
Qed.

(** C1.  For distinct snippets and any search depth [D], the candidate
    sequence is the list of the joined non-empty subsequences of the snippets
    of size at most [min D N], each exactly once, sorted by smallest original
    index and then by largest original index; for three snippets [a, b, c]
    and depth 3 it starts with ["a"], ["a, b"], ["a, c"], and no candidate
    without [a] comes before the fifth place. *)
Theorem candidate_sequence_spec (D : Z) (snips : list string) :
  NoDup snips →
  (∃ subsets,
      composed_addresses D snips = Some (String.concat ", " <$> subsets)
      ∧ NoDup subsets
      ∧ (∀ t, t ∈ subsets ↔
              t `sublist_of` snips
              ∧ (1 ≤ Z.of_nat (length t) ≤ Z.min D (Z.of_nat (length snips)))%Z)
      ∧ StronglySorted (priority_le snips) subsets)
  ∧ (∀ a b c, snips = [a; b; c] →
       composed_addresses 3 snips
       = Some [a; a +:+ ", " +:+ b; a +:+ ", " +:+ c;
               a +:+ ", " +:+ b +:+ ", " +:+ c;
               b; b +:+ ", " +:+ c; c]).
Proof.
  intros Hnd. split.
  - destruct (sorted_combinations_spec D snips) as (tuples & Hs & Hp & Hsorted).
    exists tuples. split_and!.
    + unfold composed_addresses. by rewrite Hs.
    + rewrite Hp. by apply NoDup_all_combinations.
    + intros t. rewrite Hp, elem_of_all_combinations. split.
      * intros (Hsub & ? & ?). split; [done|].
        apply sublist_length in Hsub. lia.
      * intros (Hsub & ?). split; [done|lia].
    + auto.
  - intros a b c ->.
    apply NoDup_cons in Hnd as [Ha Hnd]. apply NoDup_cons in Hnd as [Hb _].
    apply composed_addresses_three; set_solver.
Qed.

Lemma candidate_sequence_spec_witness :
  ∃ subsets,
    composed_addresses 2 ["fokino"; "orjol"; "russia"]
    = Some (String.concat ", " <$> subsets)
    ∧ NoDup subsets
    ∧ (∀ t, t ∈ subsets ↔
            t `sublist_of` ["fokino"; "orjol"; "russia"]
            ∧ (1 ≤ Z.of_nat (length t) ≤ Z.min 2 (Z.of_nat 3))%Z)
    ∧ StronglySorted (priority_le ["fokino"; "orjol"; "russia"]) subsets.
Proof.
  refine (proj1 (candidate_sequence_spec 2 ["fokino"; "orjol"; "russia"] _)).
  apply (bool_decide_unpack _). vm_compute. reflexivity.
Defined.

(** ** The resolution loop *)

Section GeolocatorFacts.

Context {world : Type}.
Variable geocode : string → gmaps_kwargs → world → response * world.
Implicit Types (self : geolocator world) (opts : search_options).
Implicit Types (a warnings : string) (addrs : list string).

(** The three ways through the loop body. *)
Ltac attempt_cases a self :=
  unfold attempt;
  destruct (discovered_addrs self !! a) as [[? ?]|] eqn:?;
  [|case_bool_decide;
    [|destruct (geocode a _ (gmaps_client self)) as [[[|? ?]|?] ?] eqn:?]].

Lemma attempt_hit opts n i a self warnings la ln :
  discovered_addrs self !! a = Some (la, ln) →
  attempt geocode opts n i a self warnings
  = Break (Returned la ln (warn_fallback n i warnings)) self.
Proof. intros H. unfold attempt. by rewrite H. Qed.

Lemma attempt_skip opts n i a self warnings :
  discovered_addrs self !! a = None → a ∈ no_result_list self →
  attempt geocode opts n i a self warnings
  = Continue self (warn_fallback n i warnings).
Proof. intros H ?. unfold attempt. rewrite H. by rewrite bool_decide_eq_true_2. Qed.

Lemma grows_refl self : grows self self.
Proof. by repeat split. Qed.

Lemma grows_trans self1 self2 self3 :
  grows self1 self2 → grows self2 self3 → grows self1 self3.
Proof. intros (?&?&?) (?&?&?). repeat split; by etrans. Qed.

Lemma attempt_grows opts n i a self warnings :
  match attempt geocode opts n i a self warnings with
  | Continue self' _ | Break _ self' => grows self self'
  end.
Proof.
  attempt_cases a self; simpl; try apply grows_refl.
  - repeat split; simpl; [done|by apply prefix_app_r|by apply prefix_app_r].
  - repeat split; simpl; [by apply insert_subseteq|done|by apply prefix_app_r].
  - repeat split; simpl; [done|done|by apply prefix_app_r].
Qed.

Lemma attempts_grows opts n i addrs last self warnings :
  grows self (attempts geocode opts n i addrs last self warnings).2.
Proof.
  revert i last self warnings.
  induction addrs as [|a rest IH]; intros i last self warnings; simpl.
  - destruct last; simpl; [|apply grows_refl].
    repeat split; simpl; [done|by apply prefix_app_r|done].
  - pose proof (attempt_grows opts n i a self warnings) as Hstep.
    destruct (attempt geocode opts n i a self warnings) as [self' w'|r self'];
      simpl; [|done].
    eapply grows_trans; [done|apply IH].
Qed.

(** Running the loop over a prefix it passes, then over the rest. *)
Lemma attempts_app opts n i pre post last self warnings self' warnings' :
  passes geocode opts n i pre self warnings = Some (self', warnings') →
  attempts geocode opts n i (pre ++ post) last self warnings
  = attempts geocode opts n (i + length pre) post (last_seen last pre) self' warnings'.
Proof.
  revert i last self warnings.
  induction pre as [|a pre IH]; intros i l self warnings; simpl.
  - intros [= <- <-]. by rewrite Nat.add_0_r.
  - destruct (attempt geocode opts n i a self warnings) as [s1 w1|]; [|done].
    intros Hp. rewrite (IH _ (Some a) _ _ Hp). f_equal; [lia|].
    unfold last_seen. destruct pre as [|b pre]; [done|].
    change (last (a :: b :: pre)) with (last (b :: pre)).
    by destruct (last (b :: pre)) eqn:Hl; [|by apply last_None in Hl].
Qed.

Lemma passes_grows opts n i addrs self warnings self' warnings' :
  passes geocode opts n i addrs self warnings = Some (self', warnings') →
  discovered_addrs self' = discovered_addrs self ∧ grows self self'.
Proof.
  revert i self warnings.
  induction addrs as [|a rest IH]; intros i self warnings; simpl.
  - intros [= <- <-]. split; [done|apply grows_refl].
  - pose proof (attempt_grows opts n i a self warnings) as Hstep.
    assert (∀ s w, attempt geocode opts n i a self warnings = Continue s w →
                   discovered_addrs s = discovered_addrs self) as Hd.
    { intros s w. attempt_cases a self; intros; by simplify_eq. }
    destruct (attempt geocode opts n i a self warnings) as [s1 w1|]; [|done].
    intros [Hd' ?]%IH. split; [by rewrite Hd', (Hd s1 w1)|by eapply grows_trans].
Qed.

(** From the top of the loop body at a reached candidate. *)
Lemma reaches_geolocate opts snips self0 i a self warnings :
  reaches geocode opts snips self0 i a self warnings →
  ∃ addrs,
    composed_addresses (search_depth opts) snips = Some addrs
    ∧ addrs !! i = Some a
    ∧ _geolocate geocode opts snips self0
      = attempts geocode opts (length snips) i (a :: drop (S i) addrs)
          (last_seen None (take i addrs)) self warnings.
Proof.
  intros (addrs & Hc & Hi & Hp). exists addrs. split_and!; [done..|].
  unfold _geolocate. rewrite Hc.
  rewrite <-(take_drop_middle addrs i a Hi) at 1.
  rewrite (attempts_app _ _ _ _ _ _ _ _ _ _ Hp).
  rewrite length_take. apply lookup_lt_Some in Hi.
  by replace (0 + i `min` length addrs) with i by lia.
Qed.

(** C10.  A call to [_geolocate] keeps every entry of the positive cache with
    its coordinates and every entry of the negative cache: both caches only
    grow. *)
Theorem geolocate_frame opts snips self :
  (∀ a c, discovered_addrs self !! a = Some c →
          discovered_addrs (_geolocate geocode opts snips self).2 !! a = Some c)
  ∧ no_result_list self `prefix_of` no_result_list (_geolocate geocode opts snips self).2
  ∧ (∀ a, a ∈ no_result_list self →
          a ∈ no_result_list (_geolocate geocode opts snips self).2).
Proof.
  assert (grows self (_geolocate geocode opts snips self).2) as (Hd & Hn & _).
  { unfold _geolocate. destruct (composed_addresses _ _); simpl.
    - apply attempts_grows.
    - apply grows_refl. }
  split_and!.
  - intros a c Ha. by eapply lookup_weaken.
  - done.
  - intros a Ha. destruct Hn as [k ->]. apply elem_of_app. by left.
Qed.

(** A pass through the loop body that returns coordinates leaves them in the
    positive cache. *)
Lemma attempt_returned_cached opts n i a self warnings la ln w1 self1 :
  attempt geocode opts n i a self warnings = Break (Returned la ln w1) self1 →
  discovered_addrs self1 !! a = Some (la, ln).
Proof.
  attempt_cases a self; intros; simplify_eq; simpl; [done|].
  apply lookup_insert_eq.
Qed.

(** An address of the negative cache that is not in the positive cache stays
    out of it: the provider is never asked about it. *)
Lemma attempts_keeps_failed opts n i addrs last self warnings b :
  b ∈ no_result_list self →
  discovered_addrs (attempts geocode opts n i addrs last self warnings).2 !! b
  = discovered_addrs self !! b.
Proof.
  revert i last self warnings.
  induction addrs as [|a rest IH]; intros i last self warnings Hb; simpl.
  - by destruct last.
  - attempt_cases a self; simpl; try done.
    + by apply IH.
    + rewrite IH; [done|]. simpl. apply elem_of_app. by left.
    + apply lookup_insert_ne. by intros ->.
Qed.

(** A row that was resolved, or exhausted, is answered again from the caches
    alone. *)
Lemma attempts_again opts n addrs i last self warnings la ln w1 self1 :
  attempts geocode opts n i addrs last self warnings = (Returned la ln w1, self1) →
  ∀ i2 self2 w2,
    discovered_addrs self2 = discovered_addrs self1 →
    no_result_list self1 ⊆ no_result_list self2 →
    ∃ w2' self3,
      attempts geocode opts n i2 addrs last self2 w2 = (Returned la ln w2', self3)
      ∧ queries self3 = queries self2
      ∧ gmaps_client self3 = gmaps_client self2.
Proof.
  revert i last self warnings.
  induction addrs as [|a rest IH]; intros i last self warnings Hrun i2 self2 w2 Hd Hn.
  - simpl in *. destruct last; simplify_eq. eauto.
  - simpl in Hrun. simpl.
    assert (∀ s w, attempts geocode opts n (S i) rest (Some a) s w
                   = (Returned la ln w1, self1) →
                   a ∈ no_result_list s → discovered_addrs s !! a = None →
      ∃ w2' self3,
        match attempt geocode opts n i2 a self2 w2 with
        | Continue self0 warnings0 =>
            attempts geocode opts n (S i2) rest (Some a) self0 warnings0
        | Break r self0 => (r, self0)
        end = (Returned la ln w2', self3)
        ∧ queries self3 = queries self2
        ∧ gmaps_client self3 = gmaps_client self2) as Hskip.
    { intros s w Hrest Ha Hnone.
      pose proof (attempts_keeps_failed opts n (S i) rest (Some a) s w a Ha) as Hkeep.
      pose proof (attempts_grows opts n (S i) rest (Some a) s w) as (_ & [k Hk] & _).
      rewrite Hrest in Hkeep, Hk. simpl in Hkeep, Hk.
      rewrite attempt_skip.
      - by eapply IH.
      - by rewrite Hd, Hkeep.
      - apply Hn. rewrite Hk. apply elem_of_app. by left. }
    set (again := attempt geocode opts n i2 a self2 w2) in *.
    revert Hrun. attempt_cases a self; simpl; intros Hrun.
    + simplify_eq. unfold again.
      rewrite (attempt_hit _ _ _ _ _ _ la ln); [eauto|]. by rewrite Hd.
    + by eapply Hskip.
    + eapply Hskip; [done| |done]. simpl. apply elem_of_app. right. by left.
    + simplify_eq. unfold again.
      rewrite (attempt_hit _ _ _ _ _ _ (lat l) (lng l)); [eauto|].
      rewrite Hd. simpl. apply lookup_insert_eq.
    + done.
Qed.

(** C2.  What a pass through the loop body resolves is in the positive cache
    with the coordinates returned; whenever a candidate is a key of the
    positive cache, any call that reaches it, in a state whose positive cache
    extends that one (later in the run, or in a run started from the persisted
    caches), returns the cached coordinates with the warnings accumulated so
    far and leaves the caches, the provider and the query log as they were on
    reaching it: no provider call is made; and a row that has returned
    coordinates returns the same coordinates, without any provider call, when
    it is resolved again from the caches the first resolution left. *)
Theorem cache_hit_idempotent :
  (∀ opts n i a self warnings la ln w1 self1,
      attempt geocode opts n i a self warnings = Break (Returned la ln w1) self1 →
      discovered_addrs self1 !! a = Some (la, ln))
  ∧ (∀ a la ln self1 opts snips self2 j self' warnings',
      discovered_addrs self1 !! a = Some (la, ln) →
      discovered_addrs self1 ⊆ discovered_addrs self2 →
      reaches geocode opts snips self2 j a self' warnings' →
      _geolocate geocode opts snips self2
      = (Returned la ln (warn_fallback (length snips) j warnings'), self'))
  ∧ (∀ opts snips self la ln w1 self1 self2,
      _geolocate geocode opts snips self = (Returned la ln w1, self1) →
      discovered_addrs self2 = discovered_addrs self1 →
      no_result_list self2 = no_result_list self1 →
      ∃ w2 self3,
        _geolocate geocode opts snips self2 = (Returned la ln w2, self3)
        ∧ queries self3 = queries self2
        ∧ gmaps_client self3 = gmaps_client self2).
Proof.
  split_and!; [apply attempt_returned_cached| |].
  - intros a la ln self1 opts snips self2 j self' w' Ha Hsub Hreach.
    destruct (reaches_geolocate _ _ _ _ _ _ _ Hreach) as (addrs & _ & _ & ->).
    destruct Hreach as (addrs' & _ & _ & Hp).
    apply passes_grows in Hp as [Hd _].
    simpl. rewrite (attempt_hit _ _ _ _ _ _ la ln); [done|].
    rewrite Hd. by eapply lookup_weaken.
  - intros opts snips self la ln w1 self1 self2. unfold _geolocate.
    destruct (composed_addresses (search_depth opts) snips) as [addrs|]; [|done].
    intros Hrun Hd Hn. eapply attempts_again; [done..|]. by rewrite Hn.
Qed.

(** The provider is only asked about addresses that are in neither cache. *)
Lemma attempts_queries opts n i addrs last self warnings :
  ∃ qs,
    queries (attempts geocode opts n i addrs last self warnings).2 = (queries self ++ qs)%list
    ∧ ∀ q, q ∈ qs → q ∉ no_result_list self.
Proof.
  revert i last self warnings.
  induction addrs as [|a rest IH]; intros i last self warnings; simpl.
  - exists []. rewrite app_nil_r. split; [by destruct last|]. by intros ? ?%elem_of_nil.
  - pose proof (attempt_grows opts n i a self warnings) as Hg. revert Hg.
    attempt_cases a self; simpl; intros Hg.
    + exists []. rewrite app_nil_r. split; [done|]. by intros ? ?%elem_of_nil.
    + apply IH.
    + destruct (IH (S i) (Some a)
        (record_failure (called self a w) a)
        (warn_fallback n i warnings +:+ no_result_warning a)) as (qs & -> & Hqs).
      exists (a :: qs). simpl. rewrite <-app_assoc. split; [done|].
      intros q [->|Hq]%elem_of_cons; [done|].
      intros Hin. apply (Hqs q Hq). simpl. apply elem_of_app. by left.
    + exists [a]. split; [done|]. by intros q ->%list_elem_of_singleton.
    + exists [a]. split; [done|]. by intros q ->%list_elem_of_singleton.
Qed.

(** C3.  A candidate reached while it is in the negative cache and not in the
    positive cache is skipped: the pass changes neither the caches nor the
    provider nor the query log, adds no "No result found" warning, and the
    loop goes on with the next candidate; and nothing the call asks the
    provider afterwards is that candidate. *)
Theorem known_failure_skipped opts snips self0 i a self warnings :
  reaches geocode opts snips self0 i a self warnings →
  a ∈ no_result_list self →
  discovered_addrs self !! a = None →
  attempt geocode opts (length snips) i a self warnings
  = Continue self (warn_fallback (length snips) i warnings)
  ∧ ∃ addrs qs,
      composed_addresses (search_depth opts) snips = Some addrs
      ∧ _geolocate geocode opts snips self0
        = attempts geocode opts (length snips) (S i) (drop (S i) addrs) (Some a)
            self (warn_fallback (length snips) i warnings)
      ∧ queries (_geolocate geocode opts snips self0).2 = (queries self ++ qs)%list
      ∧ a ∉ qs.
Proof.
  intros Hreach Hin Hnone.
  pose proof (attempt_skip opts (length snips) i a self warnings Hnone Hin) as Hskip.
  split; [done|].
  destruct (reaches_geolocate _ _ _ _ _ _ _ Hreach) as (addrs & Hc & _ & Hrun).
  simpl in Hrun. rewrite Hskip in Hrun.
  destruct (attempts_queries opts (length snips) (S i) (drop (S i) addrs) (Some a)
              self (warn_fallback (length snips) i warnings)) as (qs & Hq & Hqs).
  exists addrs, qs. split_and!; [done|done|by rewrite Hrun|].
  intros Ha. by apply (Hqs a Ha).
Qed.

(** *** Exhaustion *)

Lemma last_seen_cons last a addrs :
  last_seen last (a :: addrs) = last_seen (Some a) addrs.
Proof.
  unfold last_seen. destruct addrs as [|b addrs]; [done|].
  change (list.last (a :: b :: addrs)) with (list.last (b :: addrs)).
  by destruct (list.last (b :: addrs)) eqn:Hl; [|by apply last_None in Hl].
Qed.

Lemma attempts_exhausted opts n i addrs last self warnings :
  (∀ a, a ∈ addrs →
        discovered_addrs self !! a = None
        ∧ (a ∈ no_result_list self
           ∨ ∀ g, (geocode a (build_kwargs opts) g).1 = Results [])) →
  ∃ w self',
    attempts geocode opts n i addrs last self warnings
    = match last_seen last addrs with
      | Some x => (Returned nan nan (w +:+ "Search Failed!;"), record_failure self' x)
      | None => (Raised (UnboundLocalError "attempted_address"), self')
      end
    ∧ no_result_list self `prefix_of` no_result_list self'
    ∧ ∀ a, a ∈ addrs → a ∈ no_result_list self'.
Proof.
  revert i last self warnings.
  induction addrs as [|a rest IH]; intros i last self warnings Hall.
  - exists warnings, self. simpl. split_and!; [by destruct last|done|].
    by intros ? ?%elem_of_nil.
  - rewrite last_seen_cons. simpl.
    destruct (Hall a) as [Hnone Hfail]; [by left|].
    assert (∀ self1 w1,
      discovered_addrs self1 = discovered_addrs self →
      no_result_list self `prefix_of` no_result_list self1 →
      a ∈ no_result_list self1 →
      ∃ w self',
        attempts geocode opts n (S i) rest (Some a) self1 w1
        = match last_seen (Some a) rest with
          | Some x => (Returned nan nan (w +:+ "Search Failed!;"), record_failure self' x)
          | None => (Raised (UnboundLocalError "attempted_address"), self')
          end
        ∧ no_result_list self `prefix_of` no_result_list self'
        ∧ ∀ b, b ∈ a :: rest → b ∈ no_result_list self') as Hnext.
    { intros self1 w1 Hd Hpre Ha.
      destruct (IH (S i) (Some a) self1 w1) as (w & self' & Hrun & Hpre' & Hin).
      { intros b Hb. destruct (Hall b) as [Hbn Hbf]; [by right|].
        rewrite Hd. split; [done|]. destruct Hbf as [Hbf|Hbf]; [left|by right].
        destruct Hpre as [k ->]. apply elem_of_app. by left. }
      exists w, self'. split_and!; [done|by etrans|].
      intros b [->|Hb]%elem_of_cons; [|by apply Hin].
      destruct Hpre' as [k ->]. apply elem_of_app. by left. }
    unfold attempt. rewrite Hnone. case_bool_decide as Hin.
    + by apply Hnext.
    + destruct Hfail as [?|Hempty]; [done|].
      specialize (Hempty (gmaps_client self)).
      destruct (geocode a (build_kwargs opts) (gmaps_client self)) as [r g].
      simpl in Hempty. subst r. apply Hnext; simpl; [done|by apply prefix_app_r|].
      apply elem_of_app. right. by left.
Qed.

Lemma composed_addresses_nonempty (D : Z) (snips : list string) :
  snips ≠ [] → (1 ≤ D)%Z →
  ∃ addrs a, composed_addresses D snips = Some addrs ∧ list.last addrs = Some a.
Proof.
  intros Hne HD.
  destruct (composed_addresses_total D snips) as (tuples & Hc & Hp).
  rewrite Hc. destruct snips as [|x snips]; [done|].
  assert ([x] ∈ tuples) as Hx.
  { rewrite Hp. apply elem_of_all_combinations. split_and!; simpl; [|lia..].
    apply sublist_skip, sublist_nil_l. }
  destruct (list.last (String.concat ", " <$> tuples)) as [a|] eqn:Hl; [eauto|].
  apply last_None, fmap_nil_inv in Hl. subst tuples. by apply elem_of_nil in Hx.
Qed.

(** C4.  For a non-empty snippet list (and a search depth of at least 1), when
    every candidate is absent from the positive cache and is either in the
    negative cache or gets an empty answer from the provider, [_geolocate]
    returns [(nan, nan)] with warnings that end in ["Search Failed!;"], and
    the last candidate of the sequence is in the negative cache afterwards. *)
Theorem exhaustion_fails opts snips self :
  snips ≠ [] → (1 ≤ search_depth opts)%Z →
  (∀ addrs a,
      composed_addresses (search_depth opts) snips = Some addrs → a ∈ addrs →
      discovered_addrs self !! a = None
      ∧ (a ∈ no_result_list self
         ∨ ∀ g, (geocode a (build_kwargs opts) g).1 = Results [])) →
  ∃ addrs attempted_address w self',
    composed_addresses (search_depth opts) snips = Some addrs
    ∧ list.last addrs = Some attempted_address
    ∧ _geolocate geocode opts snips self
      = (Returned nan nan (w +:+ "Search Failed!;"), self')
    ∧ attempted_address ∈ no_result_list self'.
Proof.
  intros Hne HD Hall.
  destruct (composed_addresses_nonempty _ _ Hne HD) as (addrs & a & Hc & Hl).
  destruct (attempts_exhausted opts (length snips) 0 addrs None self ""
              (λ b, Hall addrs b Hc)) as (w & self' & Hrun & _ & _).
  unfold last_seen in Hrun. rewrite Hl in Hrun.
  exists addrs, a, w, (record_failure self' a).
  split_and!; [done..| |].
  - unfold _geolocate. by rewrite Hc.
  - simpl. apply elem_of_app. right. by left.
Qed.

(** Inside the loop an address is appended to the negative cache only when it
    is not in it yet. *)
Lemma attempt_NoDup opts n i a self warnings :
  NoDup (no_result_list self) →
  match attempt geocode opts n i a self warnings with
  | Continue self' _ | Break _ self' => NoDup (no_result_list self')
  end.
Proof.
  intros Hnd. attempt_cases a self; simpl; try done.
  apply NoDup_app. split_and!; [done| |apply NoDup_singleton].
  by intros x Hx ->%list_elem_of_singleton.
Qed.

(** The append after the loop always adds an address that is there already. *)
Lemma exhaustion_duplicates opts snips self :
  snips ≠ [] → (1 ≤ search_depth opts)%Z →
  (∀ addrs a,
      composed_addresses (search_depth opts) snips = Some addrs → a ∈ addrs →
      discovered_addrs self !! a = None
      ∧ (a ∈ no_result_list self
         ∨ ∀ g, (geocode a (build_kwargs opts) g).1 = Results [])) →
  ¬ NoDup (no_result_list (_geolocate geocode opts snips self).2).
Proof.
  intros Hne HD Hall.
  destruct (composed_addresses_nonempty _ _ Hne HD) as (addrs & a & Hc & Hl).
  destruct (attempts_exhausted opts (length snips) 0 addrs None self ""
              (λ b, Hall addrs b Hc)) as (w & self' & Hrun & _ & Hin).
  unfold last_seen in Hrun. rewrite Hl in Hrun.
  unfold _geolocate. rewrite Hc, Hrun. simpl.
  intros [_ [Hdis _]]%NoDup_app. apply (Hdis a); [|by left].
  apply Hin. apply last_Some in Hl as [l' ->]. apply elem_of_app. right. by left.
Qed.

(** *** The empty row *)

Lemma composed_addresses_nil (D : Z) : composed_addresses D [] = Some [].
Proof.
  destruct (composed_addresses_total D []) as (tuples & -> & Hp).
  destruct tuples as [|t tuples]; [done|].
  assert (t ∈ all_combinations D []) as Ht by (rewrite <-Hp; by left).
  apply elem_of_all_combinations in Ht as (->%sublist_nil_r & Hlen & _).
  simpl in Hlen. lia.
Qed.

(** C7.  On a row without snippets the candidate sequence is empty, and
    [_geolocate] does not return: reading [attempted_address] after the loop
    raises [UnboundLocalError]; [geolocate_csv] does not catch it, so the
    rows after that one are not processed. *)
Theorem empty_row_raises opts rows self :
  composed_addresses (search_depth opts) [] = Some []
  ∧ _geolocate geocode opts [] self
    = (Raised (UnboundLocalError "attempted_address"), self)
  ∧ geolocate_rows geocode opts ([] :: rows) self
    = ([], Some (UnboundLocalError "attempted_address"), self).
Proof.
  assert (_geolocate geocode opts [] self
          = (Raised (UnboundLocalError "attempted_address"), self)) as Hrun.
  { unfold _geolocate. by rewrite composed_addresses_nil. }
  split_and!; [apply composed_addresses_nil|done|].
  simpl. by rewrite Hrun.
Qed.

(** *** The warnings of a row *)

Lemma string_app_nil_l (s : string) : "" +:+ s = s.
Proof. reflexivity. Qed.

Lemma string_app_cons (c : Ascii.ascii) (s1 s2 : string) :
  String c s1 +:+ s2 = String c (s1 +:+ s2).
Proof. reflexivity. Qed.

Lemma string_app_assoc (s1 s2 s3 : string) :
  (s1 +:+ s2) +:+ s3 = s1 +:+ s2 +:+ s3.
Proof.
  induction s1 as [|c s1 IH]; [done|]. by rewrite !string_app_cons, IH.
Qed.

Lemma string_app_nil_r (s : string) : s +:+ "" = s.
Proof.
  induction s as [|c s IH]; [done|]. by rewrite string_app_cons, IH.
Qed.

Lemma warn_fallback_app (n i : nat) (warnings : string) :
  warn_fallback n i warnings = warnings +:+ warn_fallback n i "".
Proof.
  unfold warn_fallback. destruct (past_threshold n i); [done|].
  by rewrite string_app_nil_r.
Qed.

Lemma attempt_verdict opts n i a self warnings :
  match attempt geocode opts n i a self warnings with
  | Continue _ w1 =>
      ∃ v, resolves v = false ∧ happened geocode opts v a self
           ∧ w1 = warn_fallback n i warnings +:+ verdict_text a v
  | Break (Returned _ _ w1) _ =>
      ∃ v, resolves v = true ∧ happened geocode opts v a self
           ∧ w1 = warn_fallback n i warnings
  | Break (Raised _) _ => True
  end.
Proof.
  attempt_cases a self; simpl.
  - exists Cached. split_and!; [done| |done]. simpl. eauto.
  - exists KnownFailure. split_and!; [done|done|]. by rewrite string_app_nil_r.
  - exists NotFound. split_and!; [done| |done]. simpl.
    match goal with H : geocode _ _ _ = _ |- _ => by rewrite H end.
  - exists Found. split_and!; [done| |done]. simpl.
    match goal with H : geocode _ _ _ = _ |- _ => rewrite H end. eauto.
  - done.
Qed.

Lemma attempts_expected opts n i rest last self warnings la ln w self1 :
  attempts geocode opts n i rest last self warnings = (Returned la ln w, self1) →
  ∃ evaluated,
    w = warnings +:+ expected_warnings n i evaluated
    ∧ evaluated.*1 `prefix_of` rest
    ∧ (∀ j a v, evaluated !! j = Some (a, v) →
         (∃ self_j w_j,
             rest !! j = Some a
             ∧ passes geocode opts n i (take j rest) self warnings = Some (self_j, w_j)
             ∧ happened geocode opts v a self_j)
         ∧ (resolves v = true → S j = length evaluated))
    ∧ (Forall (λ av, resolves av.2 = false) evaluated → evaluated.*1 = rest).
Proof.
  revert i last self warnings.
  induction rest as [|a rest IH]; intros i last self warnings; simpl.
  - destruct last; intros; simplify_eq.
    exists []. split_and!; [done|done| |done]. by intros j b v ?.
  - pose proof (attempt_verdict opts n i a self warnings) as Hv.
    destruct (attempt geocode opts n i a self warnings)
      as [s1 w1|[la' ln' w'|e] s1] eqn:Hstep; [| |done].
    + destruct Hv as (v & Hres & Hhap & ->).
      intros (evaluated & -> & Hpre & Hall & Hex)%IH.
      exists ((a, v) :: evaluated). split_and!.
      * simpl. rewrite Hres, (warn_fallback_app n i warnings).
        by rewrite !string_app_assoc.
      * simpl. by apply prefix_cons.
      * intros [|j] b u; simpl.
        -- intros [= <- <-]. split; [|congruence].
           exists self, warnings. by split_and!.
        -- intros Hj. destruct (Hall j b u Hj) as [(sj & wj & ? & Hp & ?) Hlast].
           split; [|intros ?; f_equal; auto].
           exists sj, wj. split_and!; [done| |done]. by rewrite Hstep.
      * intros [_ Htail]%Forall_cons. simpl. f_equal. auto.
    + destruct Hv as (v & Hres & Hhap & ->). intros [= <- <- <- <-].
      exists [(a, v)]. split_and!.
      * simpl. rewrite Hres, (warn_fallback_app n i warnings).
        destruct v; try done; simpl; by rewrite !string_app_nil_r.
      * simpl. apply prefix_cons, prefix_nil.
      * intros [|j] b u; simpl; [|done]. intros [= <- <-]. split; [|done].
        exists self, warnings. by split_and!.
      * intros [Hno _]%Forall_cons. simpl in Hno. congruence.
Qed.

(** C5, as the code has it.  The fallback text is appended, not prepended,
    and on every evaluation of a candidate whose position exceeds [2^(N-1)],
    not once per row: the warnings returned are exactly, for each candidate
    the call reaches, in order, the fallback text if its position exceeds
    [2^(N-1)], followed by that candidate's "No result found" text if it is
    in neither cache and the provider, asked, found nothing; and then
    ["Search Failed!;"] when no candidate resolved the row, in which case
    every candidate was reached.  The candidate that resolves the row (a key
    of the positive cache, or found by the provider) is the last one
    reached. *)
Theorem fallback_warning_per_candidate opts snips self la ln w self' :
  _geolocate geocode opts snips self = (Returned la ln w, self') →
  ∃ addrs evaluated,
    composed_addresses (search_depth opts) snips = Some addrs
    ∧ w = expected_warnings (length snips) 0 evaluated
    ∧ evaluated.*1 `prefix_of` addrs
    ∧ (∀ j a v, evaluated !! j = Some (a, v) →
         (∃ self_j w_j,
             reaches geocode opts snips self j a self_j w_j
             ∧ happened geocode opts v a self_j)
         ∧ (resolves v = true → S j = length evaluated))
    ∧ (Forall (λ av, resolves av.2 = false) evaluated → evaluated.*1 = addrs).
Proof.
  unfold _geolocate.
  destruct (composed_addresses (search_depth opts) snips) as [addrs|] eqn:Hc; [|done].
  intros (evaluated & -> & Hpre & Hall & Hex)%attempts_expected.
  exists addrs, evaluated. split_and!; [done..| |done].
  intros j a v Hj. destruct (Hall j a v Hj) as [(sj & wj & ? & ? & ?) Hlast].
  split; [|done]. exists sj, wj. split; [|done]. by exists addrs.
Qed.

(** C6, as the code has it.  On a row of three snippets, every evaluation
    of a candidate at a position beyond 4 appends the fallback text to the
    warnings, once for that evaluation. *)
Theorem fallback_warning_three_snippets opts snips self0 i a self warnings w' :
  length snips = 3 → 4 < i →
  reaches geocode opts snips self0 i a self warnings →
  step_warnings (attempt geocode opts (length snips) i a self warnings) = Some w' →
  w' = warnings +:+ FIDELITY_WARNING
  ∨ w' = warnings +:+ FIDELITY_WARNING +:+ no_result_warning a.
Proof.
  intros -> Hi _.
  assert (warn_fallback 3 i warnings = warnings +:+ FIDELITY_WARNING) as Hw.
  { unfold warn_fallback, past_threshold.
    by rewrite (proj2 (Nat.ltb_lt (2 ^ 2) i)) by (simpl; lia). }
  attempt_cases a self; simpl; rewrite ?Hw; intros; simplify_eq; auto.
  right. by rewrite string_app_assoc.
Qed.

End GeolocatorFacts.

(** ** Joined candidates of comma-free snippets *)

Lemma has_comma_app (s r : string) : has_comma (s +:+ String ","%char r) = true.
Proof.
  induction s as [|c s IH]; [done|].
  rewrite string_app_cons. simpl. rewrite IH. apply orb_true_r.
Qed.

Lemma comma_split (x y r1 r2 : string) :
  has_comma x = false → has_comma y = false →
  x +:+ String ","%char r1 = y +:+ String ","%char r2 → x = y ∧ r1 = r2.
Proof.
  revert y. induction x as [|c x IH]; intros [|d y] Hx Hy Heq.
  - rewrite !string_app_nil_l in Heq. by simplify_eq.
  - rewrite string_app_nil_l, string_app_cons in Heq. simplify_eq.
  - rewrite string_app_nil_l, string_app_cons in Heq. simplify_eq.
  - rewrite !string_app_cons in Heq. simplify_eq.
    simpl in Hx, Hy. apply orb_false_iff in Hx as [_ Hx], Hy as [_ Hy].
    destruct (IH y Hx Hy) as [-> ->]; done.
Qed.

Lemma concat_cons2 (x y : string) (l : list string) :
  String.concat ", " (x :: y :: l) = x +:+ String ","%char (String " "%char (String.concat ", " (y :: l))).
Proof. reflexivity. Qed.

Lemma concat_comma_inj (l1 l2 : list string) :
  Forall (λ s, has_comma s = false) l1 → Forall (λ s, has_comma s = false) l2 →
  l1 ≠ [] → l2 ≠ [] →
  String.concat ", " l1 = String.concat ", " l2 → l1 = l2.
Proof.
  revert l2. induction l1 as [|x l1 IH]; intros l2 H1 H2 Hn1 Hn2 Heq; [done|].
  destruct l2 as [|y l2]; [done|].
  apply Forall_cons in H1 as [Hx H1], H2 as [Hy H2].
  destruct l1 as [|x' l1], l2 as [|y' l2].
  - simpl in Heq. by subst.
  - rewrite concat_cons2 in Heq. simpl in Heq. subst x.
    by rewrite has_comma_app in Hx.
  - rewrite concat_cons2 in Heq. simpl in Heq. subst y.
    by rewrite has_comma_app in Hy.
  - rewrite !concat_cons2 in Heq.
    apply comma_split in Heq as [-> Heq]; [|done..]. simplify_eq.
    f_equal. by apply IH.
Qed.

(** C9, as the code has it.  The candidate sequence of distinct snippets
    none of which contains a comma has no two equal composite addresses. *)
Theorem candidates_distinct (D : Z) (snips : list string) :
  NoDup snips → Forall (λ s, has_comma s = false) snips →
  ∃ addrs, composed_addresses D snips = Some addrs ∧ NoDup addrs.
Proof.
  intros Hnd Hcf.
  destruct (composed_addresses_total D snips) as (tuples & Hc & Hp).
  eexists. split; [done|].
  assert (∀ t, t ∈ tuples → Forall (λ s, has_comma s = false) t ∧ t ≠ []) as Ht.
  { intros t Hin. rewrite Hp in Hin.
    apply elem_of_all_combinations in Hin as (Hsub & Hlen & _). split.
    - apply Forall_forall. intros s Hs. rewrite Forall_forall in Hcf.
      apply Hcf. by eapply sublist_subseteq.
    - intros ->. simpl in Hlen. lia. }
  apply NoDup_fmap_2_strong.
  - intros t1 t2 [? ?]%Ht [? ?]%Ht Heq. by apply concat_comma_inj.
  - rewrite Hp. by apply NoDup_all_combinations.
Qed.

(** ** The claims on sample rows *)

Lemma cache_hit_idempotent_witness :
  _geolocate no_results (opts_depth 1) ["fokino"; "orjol"] fokino_cached
  = (Returned 48.5 2.25 (warn_fallback 2 0 ""), fokino_cached).
Proof.
  apply (proj1 (proj2 (cache_hit_idempotent no_results))
           "fokino" 48.5%float 2.25%float fokino_cached
           (opts_depth 1) ["fokino"; "orjol"] fokino_cached 0 fokino_cached "").
  - vm_compute. reflexivity.
  - reflexivity.
  - exists ["fokino"; "orjol"]. split_and!; vm_compute; reflexivity.
Defined.

Lemma known_failure_skipped_witness :
  let self := record_failure (called ab_failed "a" ()) "a" in
  attempt (only_knows "b" paris) (opts_depth 2) 2 1 "a, b" self
    "No result found for 'a'; "
  = Continue self (warn_fallback 2 1 "No result found for 'a'; ")
  ∧ ∃ addrs qs,
      composed_addresses 2 ["a"; "b"] = Some addrs
      ∧ _geolocate (only_knows "b" paris) (opts_depth 2) ["a"; "b"] ab_failed
        = attempts (only_knows "b" paris) (opts_depth 2) 2 2 (drop 2 addrs)
            (Some "a, b") self (warn_fallback 2 1 "No result found for 'a'; ")
      ∧ queries (_geolocate (only_knows "b" paris) (opts_depth 2) ["a"; "b"] ab_failed).2
        = (queries self ++ qs)%list
      ∧ "a, b" ∉ qs.
Proof.
  apply (known_failure_skipped (only_knows "b" paris) (opts_depth 2) ["a"; "b"]
           ab_failed 1 "a, b").
  - exists ["a"; "a, b"; "b"]. split_and!; vm_compute; reflexivity.
  - apply (bool_decide_unpack _). vm_compute. reflexivity.
  - vm_compute. reflexivity.
Defined.

Lemma exhaustion_fails_witness :
  ∃ addrs attempted_address w self',
    composed_addresses 1 ["x"] = Some addrs
    ∧ list.last addrs = Some attempted_address
    ∧ _geolocate no_results (opts_depth 1) ["x"] fresh
      = (Returned nan nan (w +:+ "Search Failed!;"), self')
    ∧ attempted_address ∈ no_result_list self'.
Proof.
  apply (exhaustion_fails no_results (opts_depth 1) ["x"] fresh).
  - discriminate.
  - simpl. lia.
  - intros addrs a _ _. split; [reflexivity|]. right. intros g. reflexivity.
Defined.

(** C5 fails as stated: on the row [["a"; "b"; "c"]] at depth 3 with nothing
    found, the fallback text occurs twice in the warnings returned, and not
    at their front. *)
Lemma fallback_warning_repeated :
  ∃ self',
    _geolocate no_results (opts_depth 3) ["a"; "b"; "c"] fresh
    = (Returned nan nan abc_all_failed, self')
    ∧ occurrences FIDELITY_WARNING abc_all_failed = 2
    ∧ String.prefix FIDELITY_WARNING abc_all_failed = false.
Proof. eexists. split_and!; vm_compute; reflexivity. Qed.

Lemma fallback_warning_per_candidate_witness :
  ∃ addrs evaluated,
    composed_addresses 3 ["a"; "b"; "c"] = Some addrs
    ∧ abc_all_failed = expected_warnings 3 0 evaluated
    ∧ evaluated.*1 `prefix_of` addrs
    ∧ (∀ j a v, evaluated !! j = Some (a, v) →
         (∃ self_j w_j,
             reaches no_results (opts_depth 3) ["a"; "b"; "c"] fresh j a self_j w_j
             ∧ happened no_results (opts_depth 3) v a self_j)
         ∧ (resolves v = true → S j = length evaluated))
    ∧ (Forall (λ av, resolves av.2 = false) evaluated → evaluated.*1 = addrs).
Proof.
  apply (fallback_warning_per_candidate no_results (opts_depth 3) ["a"; "b"; "c"]
           fresh nan nan abc_all_failed
           (_geolocate no_results (opts_depth 3) ["a"; "b"; "c"] fresh).2).
  vm_compute. reflexivity.
Defined.

(** C6 fails as stated: on the row [["a"; "b"; "c"]] at depth 3, the fifth
    candidate ["b"] is evaluated, and resolved, without any fallback text in
    the warnings; and when nothing is found the text is added twice. *)
Lemma fifth_candidate_not_warned :
  (∃ self warnings self',
      reaches (only_knows "b" paris) (opts_depth 3) ["a"; "b"; "c"] fresh
        4 "b" self warnings
      ∧ _geolocate (only_knows "b" paris) (opts_depth 3) ["a"; "b"; "c"] fresh
        = (Returned 48.5 2.25 warnings, self')
      ∧ occurrences FIDELITY_WARNING warnings = 0)
  ∧ (∃ self',
      _geolocate no_results (opts_depth 3) ["a"; "b"; "c"] fresh
      = (Returned nan nan abc_all_failed, self')
      ∧ occurrences FIDELITY_WARNING abc_all_failed = 2).
Proof.
  split.
  - eexists _, _, _. split_and!.
    + eexists. split_and!; [vm_compute; reflexivity..].
    + vm_compute. reflexivity.
    + vm_compute. reflexivity.
  - eexists. split; vm_compute; reflexivity.
Qed.

Lemma fallback_warning_three_snippets_witness :
  FIDELITY_WARNING +:+ no_result_warning "b, c" = "" +:+ FIDELITY_WARNING
  ∨ FIDELITY_WARNING +:+ no_result_warning "b, c"
    = "" +:+ FIDELITY_WARNING +:+ no_result_warning "b, c".
Proof.
  apply (fallback_warning_three_snippets no_results (opts_depth 3) ["a"; "b"; "c"]
           five_failed 5 "b, c" five_failed "").
  - reflexivity.
  - lia.
  - exists ["a"; "a, b"; "a, c"; "a, b, c"; "b"; "b, c"; "c"].
    split_and!; vm_compute; reflexivity.
  - vm_compute. reflexivity.
Defined.

(** C8 fails as stated: on the row [["x"]] at depth 1 with nothing found
    and empty caches, ["x"] is appended inside the loop and once more after
    it. *)
Theorem exhaustion_appends_twice :
  NoDup (no_result_list fresh)
  ∧ no_result_list (_geolocate no_results (opts_depth 1) ["x"] fresh).2 = ["x"; "x"]
  ∧ ¬ NoDup (no_result_list (_geolocate no_results (opts_depth 1) ["x"] fresh).2).
Proof.
  split_and!.
  - constructor.
  - vm_compute. reflexivity.
  - apply exhaustion_duplicates.
    + discriminate.
    + simpl. lia.
    + intros addrs a _ _. split; [reflexivity|]. right. intros g. reflexivity.
Qed.

(** C9 fails as stated: the distinct snippets ["a, b"], ["a"], ["b"] give the
    candidate ["a, b"] twice at depth 2. *)
Lemma candidates_repeat :
  NoDup ["a, b"; "a"; "b"]
  ∧ composed_addresses 2 ["a, b"; "a"; "b"]
    = Some ["a, b"; "a, b, a"; "a, b, b"; "a"; "a, b"; "b"]
  ∧ ¬ NoDup ["a, b"; "a, b, a"; "a, b, b"; "a"; "a, b"; "b"].
Proof.
  split_and!.
  - apply (bool_decide_unpack _). vm_compute. reflexivity.
  - vm_compute. reflexivity.
  - intros [Hnot _]%NoDup_cons. apply Hnot. do 3 right. by left.
Qed.

Lemma candidates_distinct_witness :
  ∃ addrs, composed_addresses 3 ["fokino"; "orjol"; "russia"] = Some addrs ∧ NoDup addrs.
Proof.
  apply (candidates_distinct 3 ["fokino"; "orjol"; "russia"]).
  - apply (bool_decide_unpack _). vm_compute. reflexivity.
  - repeat constructor.
Defined.

(** ** Search depth and the number of candidates *)

Lemma composed_addresses_nonpositive (D : Z) (snips : list string) :
  (D ≤ 0)%Z → composed_addresses D snips = Some [].
Proof.
  intros HD. unfold composed_addresses, sorted_combinations, all_combinations.
  by replace (Z.to_nat D) with 0 by lia.
Qed.

Lemma combinations_long {A} (l : list A) (r : nat) :
  length l < r → combinations l r = [].
Proof.
  revert r. induction l as [|x xs IH]; intros [|r] Hr; simpl in *; try lia; [done|].
  rewrite (IH r), (IH (S r)) by lia. done.
Qed.

Lemma join_combinations_long (snips : list string) (start k : nat) :
  length snips ≤ start →
  mjoin ((λ depth, combinations snips (S depth)) <$> seq start k) = [].
Proof.
  intros Hs. apply join_nil_2, Forall_fmap, Forall_forall.
  intros d [? ?]%elem_of_seq. simpl. apply combinations_long. lia.
Qed.

Lemma all_combinations_saturates (D : Z) (snips : list string) :
  (Z.of_nat (length snips) ≤ D)%Z →
  all_combinations D snips = all_combinations (Z.of_nat (length snips)) snips.
Proof.
  intros HD. unfold all_combinations. rewrite Nat2Z.id.
  replace (Z.to_nat D) with (length snips + (Z.to_nat D - length snips)) by lia.
  rewrite seq_app, fmap_app, join_app.
  rewrite (join_combinations_long snips (0 + length snips)) by (simpl; lia).
  by rewrite app_nil_r.
Qed.

(** X2.  A search depth beyond the number of snippets adds nothing: the
    candidate sequence is the one of depth [N]. *)
Theorem depth_saturates (D : Z) (snips : list string) :
  (Z.of_nat (length snips) ≤ D)%Z →
  composed_addresses D snips = composed_addresses (Z.of_nat (length snips)) snips.
Proof.
  intros HD. unfold composed_addresses, sorted_combinations.
  by rewrite (all_combinations_saturates D snips HD).
Qed.

Lemma depth_saturates_witness :
  composed_addresses 7 ["fokino"; "orjol"]
  = composed_addresses (Z.of_nat (length ["fokino"; "orjol"])) ["fokino"; "orjol"].
Proof. apply (depth_saturates 7 ["fokino"; "orjol"]). simpl. lia. Defined.

(** *** Counting *)

Lemma count_combinations_nil {A} (k : nat) : count_combinations (@nil A) (S k) = 1.
Proof. induction k as [|k IH]; [done|]. simpl in *. lia. Qed.

Lemma count_combinations_cons {A} (x : A) (xs : list A) (k : nat) :
  count_combinations (x :: xs) (S (S k))
  = count_combinations xs (S k) + count_combinations xs (S (S k)).
Proof.
  induction k as [|k IH].
  - simpl. rewrite !combinations_0, length_app, length_fmap. simpl. lia.
  - change (count_combinations (x :: xs) (S (S (S k))))
      with (count_combinations (x :: xs) (S (S k))
            + length (combinations (x :: xs) (S (S k)))).
    rewrite IH. simpl. rewrite !length_app, !length_fmap. lia.
Qed.

Lemma count_combinations_mono {A} (l : list A) (k : nat) :
  count_combinations l k ≤ count_combinations l (S k).
Proof. simpl. lia. Qed.

Lemma count_combinations_all {A} (l : list A) (k : nat) :
  length l < k → count_combinations l k = 2 ^ length l.
Proof.
  revert k. induction l as [|x xs IH]; intros k Hk.
  - destruct k as [|k]; [simpl in Hk; lia|]. apply count_combinations_nil.
  - simpl in Hk. destruct k as [|[|k]]; [lia..|].
    rewrite count_combinations_cons, !IH by lia.
    change (length (x :: xs)) with (S (length xs)). rewrite Nat.pow_succ_r'. lia.
Qed.

Lemma count_combinations_bound {A} (l : list A) (k : nat) :
  count_combinations l k ≤ 2 ^ length l.
Proof.
  destruct (decide (length l < k)) as [?|Hk].
  - by rewrite count_combinations_all.
  - rewrite <-(count_combinations_all l (S (length l))) by lia.
    assert (∀ d, count_combinations l k ≤ count_combinations l (k + d)) as Hmono.
    { induction d as [|d IHd]; [by rewrite Nat.add_0_r|].
      rewrite Nat.add_succ_r. etrans; [done|apply count_combinations_mono]. }
    replace (S (length l)) with (k + (S (length l) - k)) by lia. apply Hmono.
Qed.

Lemma length_all_combinations (D : Z) (snips : list string) :
  S (length (all_combinations D snips)) = count_combinations snips (S (Z.to_nat D)).
Proof.
  unfold all_combinations. induction (Z.to_nat D) as [|d IH].
  - simpl. by rewrite combinations_0.
  - rewrite seq_S, fmap_app, join_app, length_app. simpl.
    rewrite app_nil_r. simpl in IH. lia.
Qed.

Lemma length_composed_addresses (D : Z) (snips addrs : list string) :
  composed_addresses D snips = Some addrs →
  S (length addrs) = count_combinations snips (S (Z.to_nat D)).
Proof.
  destruct (composed_addresses_total D snips) as (tuples & -> & Hp).
  intros [= <-]. by rewrite length_fmap, Hp, length_all_combinations.
Qed.

(** X3.  A row of [N] snippets has at most [2^N - 1] candidates, whatever the
    search depth, and exactly [2^N - 1] once the depth reaches [N]. *)
Theorem candidates_count (D : Z) (snips : list string) :
  ∃ addrs,
    composed_addresses D snips = Some addrs
    ∧ S (length addrs) ≤ 2 ^ length snips
    ∧ ((Z.of_nat (length snips) ≤ D)%Z → S (length addrs) = 2 ^ length snips).
Proof.
  destruct (composed_addresses_total D snips) as (tuples & Hc & Hp).
  eexists. split; [done|].
  rewrite (length_composed_addresses _ _ _ Hc). split.
  - apply count_combinations_bound.
  - intros HD. apply count_combinations_all. lia.
Qed.

(** *** Depth 1 *)

Lemma combinations_1 {A} (l : list A) : combinations l 1 = (λ x, [x]) <$> l.
Proof.
  induction l as [|x xs IH]; [done|].
  simpl. rewrite combinations_0. simpl. by rewrite IH.
Qed.

Lemma all_combinations_1 (snips : list string) :
  all_combinations 1 snips = (λ x, [x]) <$> snips.
Proof.
  unfold all_combinations. simpl. by rewrite app_nil_r, combinations_1.
Qed.

Lemma sort_key_singleton (snips : list string) (x : string) (i : nat) :
  index x snips = Some i → sort_key snips [x] = Some (i, i).
Proof. intros Hi. unfold sort_key. simpl. by rewrite Hi. Qed.

Lemma depth_one_sorted (snips suffix : list string) (o : nat) :
  (∀ j x, suffix !! j = Some x → index x snips = Some (o + j)) →
  ∃ keys,
    mapM (sort_key snips) ((λ x, [x]) <$> suffix) = Some keys
    ∧ sort_keyed (zip keys ((λ x, [x]) <$> suffix))
      = zip keys ((λ x, [x]) <$> suffix)
    ∧ length keys = length suffix
    ∧ ∀ k, head keys = Some k → k = (o, o).
Proof.
  revert o. induction suffix as [|x suffix IH]; intros o Hidx.
  - exists []. by split_and!.
  - destruct (IH (S o)) as (keys & Hkeys & Hsort & Hlen & Hhead).
    { intros j y Hj. rewrite (Hidx (S j) y Hj). f_equal. lia. }
    exists ((o, o) :: keys). split_and!.
    + apply mapM_Some_2. rewrite fmap_cons. constructor; [|by apply mapM_Some_1].
      apply sort_key_singleton. by rewrite (Hidx 0 x), Nat.add_0_r.
    + change (sort_keyed (zip ((o, o) :: keys) ((λ x, [x]) <$> x :: suffix)))
        with (insert_keyed ((o, o), [x])
                (sort_keyed (zip keys ((λ x, [x]) <$> suffix)))).
      rewrite Hsort.
      destruct keys as [|k keys], suffix as [|y suffix]; try done. simpl.
      rewrite (Hhead k eq_refl). unfold key_le. simpl.
      by rewrite (proj2 (Nat.ltb_lt o (S o))) by lia.
    + simpl. by rewrite Hlen.
    + by intros k [= <-].
Qed.

(** X4.  At search depth 1 the candidates of a row of distinct snippets are
    the snippets themselves, in their order. *)
Theorem depth_one_candidates (snips : list string) :
  NoDup snips → composed_addresses 1 snips = Some snips.
Proof.
  intros Hnd.
  destruct (depth_one_sorted snips snips 0) as (keys & Hkeys & Hsort & Hlen & _).
  { intros j x Hj. by apply index_NoDup. }
  unfold composed_addresses, sorted_combinations.
  rewrite all_combinations_1, Hkeys. simpl. rewrite Hsort.
  rewrite snd_zip by (rewrite length_fmap; lia).
  f_equal. rewrite <-list_fmap_compose. by rewrite <-(list_fmap_id snips) at 2.
Qed.

Lemma depth_one_candidates_witness :
  composed_addresses 1 ["fokino"; "orjol"; "russia"] = Some ["fokino"; "orjol"; "russia"].
Proof.
  apply (depth_one_candidates ["fokino"; "orjol"; "russia"]).
  apply (bool_decide_unpack _). vm_compute. reflexivity.
Defined.

Lemma past_threshold_below (n i : nat) : i < n → past_threshold n i = false.
Proof.
  destruct n as [|n]; [lia|]. intros Hi. simpl. apply Nat.ltb_ge.
  pose proof (Nat.pow_gt_lin_r 2 n). lia.
Qed.

Lemma past_threshold_short (n i : nat) :
  n ≤ 2 → S (S i) ≤ 2 ^ n → past_threshold n i = false.
Proof.
  intros Hn Hi. destruct n as [|[|[|n]]]; simpl in *; try lia; apply Nat.ltb_ge; lia.
Qed.

(** ** Invariants of the resolution loop *)

Section GeolocatorInvariants.

Context {world : Type}.
Variable geocode : string → gmaps_kwargs → world → response * world.
Implicit Types (self : geolocator world) (opts : search_options).
Implicit Types (a warnings : string) (addrs : list string).

Ltac body_cases a self :=
  unfold attempt;
  destruct (discovered_addrs self !! a) as [[? ?]|] eqn:?;
  [|case_bool_decide;
    [|destruct (geocode a _ (gmaps_client self)) as [[[|? ?]|?] ?] eqn:?]].

(** X1.  With a search depth of 0 or less there is no candidate, and every
    row, whatever its snippets, ends in the [UnboundLocalError] of line 171,
    the caches untouched and the provider not asked. *)
Theorem depth_nonpositive_raises opts snips self :
  (search_depth opts ≤ 0)%Z →
  _geolocate geocode opts snips self
  = (Raised (UnboundLocalError "attempted_address"), self).
Proof.
  intros HD. unfold _geolocate. by rewrite composed_addresses_nonpositive.
Qed.

(** X5.  On a row resolved at search depth 1, or of at most two snippets,
    no candidate is past the threshold of line 131: the fallback text is
    never added. *)
Theorem no_fallback_on_short_rows opts snips self0 i a self warnings :
  search_depth opts = 1%Z ∨ length snips ≤ 2 →
  reaches geocode opts snips self0 i a self warnings →
  warn_fallback (length snips) i warnings = warnings.
Proof.
  intros Hshort (addrs & Hc & Hi & _).
  apply lookup_lt_Some in Hi.
  pose proof (length_composed_addresses _ _ _ Hc) as Hlen.
  unfold warn_fallback. destruct Hshort as [HD|HN].
  - rewrite HD in Hlen. change (Z.to_nat 1) with 1 in Hlen.
    simpl in Hlen. rewrite combinations_0, combinations_1, length_fmap in Hlen.
    simpl in Hlen. rewrite past_threshold_below; [done|lia].
  - pose proof (count_combinations_bound snips (S (Z.to_nat (search_depth opts)))).
    rewrite past_threshold_short; [done|done|lia].
Qed.

(** *** The two caches stay disjoint *)

Lemma attempt_disjoint opts n i a self warnings :
  caches_disjoint self →
  match attempt geocode opts n i a self warnings with
  | Continue self' _ => caches_disjoint self' ∧ discovered_addrs self' !! a = None
  | Break _ self' => caches_disjoint self'
  end.
Proof.
  intros Hdis. body_cases a self; simpl; try done.
  - split; [|done]. intros b [Hb| ->%list_elem_of_singleton]%elem_of_app; simpl; auto.
  - intros b Hb. simpl in *. rewrite lookup_insert_ne; [auto|]. by intros ->.
Qed.

Lemma attempts_disjoint opts n i addrs last self warnings :
  caches_disjoint self →
  (∀ x, last = Some x → discovered_addrs self !! x = None) →
  caches_disjoint (attempts geocode opts n i addrs last self warnings).2.
Proof.
  revert i last self warnings.
  induction addrs as [|a rest IH]; intros i last self warnings Hdis Hlast; simpl.
  - destruct last as [x|]; simpl; [|done].
    intros b [Hb| ->%list_elem_of_singleton]%elem_of_app; simpl; auto.
  - pose proof (attempt_disjoint opts n i a self warnings Hdis) as Hstep.
    destruct (attempt geocode opts n i a self warnings) as [s1 w1|r s1]; [|done].
    destruct Hstep as [? ?]. apply IH; [done|]. by intros x [= <-].
Qed.

Lemma geolocate_disjoint opts snips self :
  caches_disjoint self →
  caches_disjoint (_geolocate geocode opts snips self).2.
Proof.
  intros Hdis. unfold _geolocate.
  destruct (composed_addresses (search_depth opts) snips); [|done].
  by apply attempts_disjoint.
Qed.

(** X6.  If no address is in both caches before a call to [_geolocate], none
    is afterwards. *)
Theorem caches_stay_disjoint opts snips self :
  caches_disjoint self →
  caches_disjoint (_geolocate geocode opts snips self).2.
Proof.
  intros Hdis. unfold _geolocate.
  destruct (composed_addresses (search_depth opts) snips) as [addrs|]; [|done].
  apply attempts_disjoint; [done|]. by intros x ?.
Qed.

(** *** What is asked of the provider *)

Lemma attempts_asked opts n i addrs last self warnings :
  ∃ qs,
    queries (attempts geocode opts n i addrs last self warnings).2
    = (queries self ++ qs)%list
    ∧ NoDup qs
    ∧ length qs ≤ length addrs
    ∧ (∀ q, q ∈ qs →
         q ∈ addrs ∧ (q ∉ no_result_list self) ∧ discovered_addrs self !! q = None)
    ∧ (∀ la ln w, (attempts geocode opts n i addrs last self warnings).1
                  = Returned la ln w →
         ∀ q, q ∈ qs →
           q ∈ no_result_list (attempts geocode opts n i addrs last self warnings).2
           ∨ is_Some (discovered_addrs
                        (attempts geocode opts n i addrs last self warnings).2 !! q)).
Proof.
  revert i last self warnings.
  induction addrs as [|a rest IH]; intros i last self warnings; simpl.
  - exists []. rewrite app_nil_r. split_and!.
    + by destruct last.
    + constructor.
    + done.
    + by intros q ?%elem_of_nil.
    + by intros la ln w' _ q ?%elem_of_nil.
  - body_cases a self; simpl.
    + exists []. rewrite app_nil_r. split_and!; [done|apply NoDup_nil_2|simpl; lia| |].
      * by intros q ?%elem_of_nil.
      * by intros la ln w' _ q ?%elem_of_nil.
    + destruct (IH (S i) (Some a) self (warn_fallback n i warnings))
        as (qs & Hq & Hnd & Hlen & Hfresh & Hpost).
      exists qs. split_and!; [done|done|lia| |done].
      intros q Hin. destruct (Hfresh q Hin) as (? & ? & ?).
      split_and!; [by right|done..].
    + match goal with
      | |- context [attempts geocode opts n (S i) rest (Some a) ?s ?w] =>
          destruct (IH (S i) (Some a) s w) as (qs & Hq & Hnd & Hlen & Hfresh & Hpost);
          pose proof (attempts_grows geocode opts n (S i) rest (Some a) s w)
            as (_ & [k Hk] & _)
      end.
      simpl in *. exists (a :: qs). split_and!.
      * by rewrite Hq, <-app_assoc.
      * constructor; [|done]. intros Hin. destruct (Hfresh a Hin) as (_ & Hn & _).
        apply Hn. apply elem_of_app. right. by left.
      * simpl. lia.
      * intros q [->|Hin]%elem_of_cons; [split_and!; [by left|done..]|].
        destruct (Hfresh q Hin) as (? & Hn & ?). split_and!; [by right| |done].
        intros Hq'. apply Hn. apply elem_of_app. by left.
      * intros la ln w' Hret q [->|Hin]%elem_of_cons; [|by eapply Hpost].
        left. rewrite Hk. apply elem_of_app. left. apply elem_of_app. right. by left.
    + exists [a]. split_and!; [done|apply NoDup_singleton|simpl; lia| |].
      * intros q ->%list_elem_of_singleton. split_and!; [by left|done..].
      * intros la ln w' _ q ->%list_elem_of_singleton. right.
        simpl. rewrite lookup_insert_eq. eauto.
    + exists [a]. split_and!; [done|apply NoDup_singleton|simpl; lia| |].
      * intros q ->%list_elem_of_singleton. split_and!; [by left|done..].
      * by intros la ln w' ?.
Qed.

(** X7.  The addresses a call to [_geolocate] asks the provider about are
    candidates of the row that were in neither cache when it started, each
    asked once, at most [2^N - 1] of them. *)
Theorem provider_asked_once opts snips self :
  ∃ addrs qs,
    composed_addresses (search_depth opts) snips = Some addrs
    ∧ queries (_geolocate geocode opts snips self).2 = (queries self ++ qs)%list
    ∧ NoDup qs
    ∧ S (length qs) ≤ 2 ^ length snips
    ∧ ∀ q, q ∈ qs →
        q ∈ addrs ∧ (q ∉ no_result_list self) ∧ discovered_addrs self !! q = None.
Proof.
  destruct (composed_addresses_total (search_depth opts) snips) as (tuples & Hc & _).
  unfold _geolocate. rewrite Hc.
  destruct (attempts_asked opts (length snips) 0 (String.concat ", " <$> tuples)
              None self "") as (qs & Hq & Hnd & Hlen & Hfresh & _).
  eexists _, qs. split_and!; [done..| |done].
  pose proof (length_composed_addresses _ _ _ Hc) as Hcount.
  pose proof (count_combinations_bound snips (S (Z.to_nat (search_depth opts)))).
  lia.
Qed.

(** *** What a call adds to the caches *)

Lemma attempts_adds (P : string → Prop) opts n i addrs last self warnings :
  (∀ x, last = Some x → P x) → (∀ a, a ∈ addrs → P a) →
  ∃ new,
    no_result_list (attempts geocode opts n i addrs last self warnings).2
    = (no_result_list self ++ new)%list
    ∧ (∀ a, a ∈ new → P a)
    ∧ (discovered_addrs (attempts geocode opts n i addrs last self warnings).2
       = discovered_addrs self
       ∨ ∃ a la ln,
           P a ∧ discovered_addrs self !! a = None
           ∧ (a ∉ no_result_list self)
           ∧ discovered_addrs (attempts geocode opts n i addrs last self warnings).2
             = <[a := (la, ln)]> (discovered_addrs self)).
Proof.
  revert i last self warnings.
  induction addrs as [|a rest IH]; intros i last self warnings Hlast Hall; simpl.
  - destruct last as [x|]; simpl.
    + exists [x]. split_and!; [done| |by left].
      intros b ->%list_elem_of_singleton. by apply Hlast.
    + exists []. rewrite app_nil_r. split_and!; [done| |by left].
      by intros b ?%elem_of_nil.
  - assert (P a) as Ha by (apply Hall; by left).
    assert (∀ b, b ∈ rest → P b) as Hrest by (intros b ?; apply Hall; by right).
    assert (∀ x, Some a = Some x → P x) as Hnext by (by intros x [= <-]).
    body_cases a self; simpl.
    + exists []. rewrite app_nil_r. split_and!; [done| |by left].
      by intros b ?%elem_of_nil.
    + by apply IH.
    + match goal with
      | |- context [attempts geocode opts n (S i) rest (Some a) ?s ?v] =>
          destruct (IH (S i) (Some a) s v Hnext Hrest) as (new & Hn & Hnew & Hd)
      end.
      simpl in *. exists (a :: new). split_and!.
      * by rewrite Hn, <-app_assoc.
      * intros b [->|Hb]%elem_of_cons; auto.
      * destruct Hd as [Hd|(b & la & ln & ? & ? & Hb & Hd)]; [by left|].
        right. exists b, la, ln. split_and!; [done..| |done].
        intros Hin. apply Hb. apply elem_of_app. by left.
    + exists []. rewrite app_nil_r. split_and!; [done| |].
      * by intros b ?%elem_of_nil.
      * right. by eexists a, _, _.
    + exists []. rewrite app_nil_r. split_and!; [done| |by left].
      by intros b ?%elem_of_nil.
Qed.

(** X8.  A call to [_geolocate] appends to the negative cache only
    candidates of the row, and adds to the positive cache at most one entry,
    for a candidate that was in neither cache. *)
Theorem additions_are_candidates opts snips self :
  ∃ addrs new,
    composed_addresses (search_depth opts) snips = Some addrs
    ∧ no_result_list (_geolocate geocode opts snips self).2
      = (no_result_list self ++ new)%list
    ∧ (∀ a, a ∈ new → a ∈ addrs)
    ∧ (discovered_addrs (_geolocate geocode opts snips self).2 = discovered_addrs self
       ∨ ∃ a la ln,
           a ∈ addrs ∧ discovered_addrs self !! a = None
           ∧ (a ∉ no_result_list self)
           ∧ discovered_addrs (_geolocate geocode opts snips self).2
             = <[a := (la, ln)]> (discovered_addrs self)).
Proof.
  destruct (composed_addresses_total (search_depth opts) snips) as (tuples & Hc & _).
  unfold _geolocate. rewrite Hc.
  set (addrs := String.concat ", " <$> tuples).
  destruct (attempts_adds (λ a, a ∈ addrs) opts (length snips) 0 addrs None self "")
    as (new & Hn & Hnew & Hd); [done..|].
  by exists addrs, new.
Qed.

(** *** Which candidate answers *)

Lemma attempts_first_resolvable opts n i addrs last self warnings la ln w self1 :
  attempts geocode opts n i addrs last self warnings = (Returned la ln w, self1) →
  (∃ k a,
      addrs !! k = Some a
      ∧ discovered_addrs self1 !! a = Some (la, ln)
      ∧ ∀ j b, j < k → addrs !! j = Some b → b ∈ no_result_list self1)
  ∨ (la = nan ∧ ln = nan
     ∧ ∀ b, b ∈ addrs → b ∈ no_result_list self1).
Proof.
  revert i last self warnings.
  induction addrs as [|a rest IH]; intros i last self warnings; simpl.
  - destruct last as [x|]; intros; simplify_eq. right.
    split_and!; [done|done|]. by intros b ?%elem_of_nil.
  - assert (∀ s v, a ∈ no_result_list s →
      attempts geocode opts n (S i) rest (Some a) s v = (Returned la ln w, self1) →
      (∃ k b,
          (a :: rest) !! k = Some b
          ∧ discovered_addrs self1 !! b = Some (la, ln)
          ∧ ∀ j c, j < k → (a :: rest) !! j = Some c → c ∈ no_result_list self1)
      ∨ (la = nan ∧ ln = nan
         ∧ ∀ b, b ∈ a :: rest → b ∈ no_result_list self1)) as Hnext.
    { intros s v Ha Hrun.
      pose proof (attempts_grows geocode opts n (S i) rest (Some a) s v)
        as (_ & [l Hl] & _).
      rewrite Hrun in Hl. simpl in Hl.
      assert (a ∈ no_result_list self1) as Ha1.
      { rewrite Hl. apply elem_of_app. by left. }
      destruct (IH _ _ _ _ Hrun) as [(k & b & Hk & Hb & Hbefore)|(-> & -> & Hall)].
      - left. exists (S k), b. split_and!; [done..|].
        intros [|j] c Hj; simpl; [by intros [= <-]|]. apply Hbefore. lia.
      - right. split_and!; [done|done|].
        intros b [->|Hb]%elem_of_cons; auto. }
    body_cases a self; simpl.
    + intros [= <- <- <- <-]. left. exists 0, a. split_and!; [done..|]. intros; lia.
    + by apply Hnext.
    + apply Hnext. simpl. apply elem_of_app. right. by left.
    + intros [= <- <- <- <-]. left. exists 0, a. split_and!; [done| |intros; lia].
      simpl. apply lookup_insert_eq.
    + done.
Qed.

(** X9.  When [_geolocate] returns, either the coordinates are those the
    positive cache now holds for a candidate of the row, every candidate
    before it being in the negative cache, or they are [(nan, nan)], the row
    has candidates and all of them are in the negative cache. *)
Theorem answer_from_first_resolvable opts snips self la ln w self1 :
  _geolocate geocode opts snips self = (Returned la ln w, self1) →
  ∃ addrs,
    composed_addresses (search_depth opts) snips = Some addrs
    ∧ ((∃ k a,
          addrs !! k = Some a
          ∧ discovered_addrs self1 !! a = Some (la, ln)
          ∧ ∀ j b, j < k → addrs !! j = Some b → b ∈ no_result_list self1)
       ∨ (la = nan ∧ ln = nan ∧ addrs ≠ []
          ∧ ∀ b, b ∈ addrs → b ∈ no_result_list self1)).
Proof.
  unfold _geolocate.
  destruct (composed_addresses (search_depth opts) snips) as [addrs|]; [|done].
  intros Hrun. exists addrs. split; [done|].
  destruct (attempts_first_resolvable _ _ _ _ _ _ _ _ _ _ _ Hrun)
    as [?|(-> & -> & Hall)]; [by left|].
  right. split_and!; [done..| |done].
  intros ->. by simpl in Hrun.
Qed.

(** *** Duplicates in the negative cache *)

Lemma duplicates_snoc (l : list string) (a : string) :
  duplicates (l ++ [a]) = duplicates l + (if bool_decide (a ∈ l) then 1 else 0).
Proof.
  induction l as [|x l IH]; [done|].
  change (duplicates ((x :: l) ++ [a]))
    with ((if bool_decide (x ∈ (l ++ [a])%list) then 1 else 0) + duplicates (l ++ [a])).
  rewrite IH. simpl.
  destruct (decide (x = a)) as [->|Hxa].
  - rewrite (bool_decide_eq_true_2 (a ∈ (l ++ [a])%list))
      by (apply elem_of_app; right; by left).
    rewrite (bool_decide_eq_true_2 (a ∈ a :: l)) by (by left).
    repeat case_bool_decide; lia.
  - assert (x ∈ (l ++ [a])%list ↔ x ∈ l) as Hx.
    { rewrite elem_of_app, list_elem_of_singleton.
      split; [intros [?|?]; [done|congruence]|intros; by left]. }
    assert (a ∈ x :: l ↔ a ∈ l) as Ha.
    { rewrite elem_of_cons. split; [intros [?|?]; [congruence|done]|intros; by right]. }
    rewrite (bool_decide_ext _ _ Hx), (bool_decide_ext _ _ Ha). lia.
Qed.

Lemma duplicates_NoDup (l : list string) : duplicates l = 0 ↔ NoDup l.
Proof.
  induction l as [|x l IH]; simpl.
  - split; [constructor|done].
  - rewrite NoDup_cons, <-IH.
    case_bool_decide; split;
      [intros ?; exfalso; lia|intros [? _]; done
      |intros ?; split; [done|lia]|intros [_ ?]; lia].
Qed.

Lemma attempt_duplicates opts n i a self warnings :
  match attempt geocode opts n i a self warnings with
  | Continue s1 _ =>
      duplicates (no_result_list s1) = duplicates (no_result_list self)
      ∧ a ∈ no_result_list s1
  | Break _ s1 => duplicates (no_result_list s1) = duplicates (no_result_list self)
  end.
Proof.
  body_cases a self; simpl; try done.
  rewrite duplicates_snoc, bool_decide_eq_false_2 by done.
  split; [lia|]. apply elem_of_app. right. by left.
Qed.

Lemma attempts_duplicates opts n i addrs last self warnings :
  (∀ x, last = Some x → x ∈ no_result_list self) →
  match passes geocode opts n i addrs self warnings with
  | Some (s_end, w_end) =>
      duplicates (no_result_list s_end) = duplicates (no_result_list self)
      ∧ match last_seen last addrs with
        | Some a =>
            attempts geocode opts n i addrs last self warnings
            = (Returned nan nan (w_end +:+ "Search Failed!;"), record_failure s_end a)
            ∧ a ∈ no_result_list s_end
        | None =>
            attempts geocode opts n i addrs last self warnings
            = (Raised (UnboundLocalError "attempted_address"), s_end)
        end
  | None =>
      duplicates (no_result_list (attempts geocode opts n i addrs last self warnings).2)
      = duplicates (no_result_list self)
  end.
Proof.
  revert i last self warnings.
  induction addrs as [|a rest IH]; intros i last self warnings Hlast.
  - simpl. split; [done|]. destruct last as [x|]; [|done]. split; [done|]. by apply Hlast.
  - rewrite last_seen_cons. simpl.
    pose proof (attempt_duplicates opts n i a self warnings) as Hstep.
    destruct (attempt geocode opts n i a self warnings) as [s1 w1|r s1]; [|done].
    destruct Hstep as [Hdup Ha].
    specialize (IH (S i) (Some a) s1 w1).
    destruct (passes geocode opts n (S i) rest s1 w1) as [[s_end w_end]|].
    + destruct IH as [Hdup' Hrest]; [by intros x [= <-]|].
      split; [congruence|done].
    + rewrite IH; [done|]. by intros x [= <-].
Qed.

(** What a call does to the duplicates of the negative cache. *)
Lemma geolocate_exhausted opts snips self :
  if exhausted geocode opts snips self then
    ∃ addrs a s_end w_end,
      composed_addresses (search_depth opts) snips = Some addrs
      ∧ list.last addrs = Some a
      ∧ passes geocode opts (length snips) 0 addrs self "" = Some (s_end, w_end)
      ∧ _geolocate geocode opts snips self
        = (Returned nan nan (w_end +:+ "Search Failed!;"), record_failure s_end a)
      ∧ a ∈ no_result_list s_end
      ∧ duplicates (no_result_list s_end) = duplicates (no_result_list self)
  else
    duplicates (no_result_list (_geolocate geocode opts snips self).2)
    = duplicates (no_result_list self).
Proof.
  unfold exhausted, _geolocate.
  destruct (composed_addresses (search_depth opts) snips) as [[|b addrs]|] eqn:Hc;
    [done| |done].
  pose proof (attempts_duplicates opts (length snips) 0 (b :: addrs) None self "")
    as Hrun.
  destruct (passes geocode opts (length snips) 0 (b :: addrs) self "")
    as [[s_end w_end]|] eqn:Hp.
  - rewrite bool_decide_eq_true_2 by eauto.
    destruct Hrun as [Hdup Hrun]; [done|].
    unfold last_seen in Hrun.
    destruct (list.last (b :: addrs)) as [a|] eqn:Hl; [|by apply last_None in Hl].
    destruct Hrun as [Hrun Ha]. by exists (b :: addrs), a, s_end, w_end.
  - rewrite bool_decide_eq_false_2 by (by intros [? ?]). by apply Hrun.
Qed.

Lemma geolocate_duplicates opts snips self :
  duplicates (no_result_list (_geolocate geocode opts snips self).2)
  = duplicates (no_result_list self)
    + (if exhausted geocode opts snips self then 1 else 0)
  ∧ (exhausted geocode opts snips self = true →
     ∃ w, (_geolocate geocode opts snips self).1
          = Returned nan nan (w +:+ "Search Failed!;")).
Proof.
  pose proof (geolocate_exhausted opts snips self) as H.
  destruct (exhausted geocode opts snips self).
  - destruct H as (addrs & a & s_end & w_end & _ & _ & _ & -> & Ha & Hdup).
    simpl. rewrite duplicates_snoc, bool_decide_eq_true_2 by done.
    split; [lia|eauto].
  - split; [lia|done].
Qed.

Lemma rows_duplicates opts rows self :
  duplicates (no_result_list (geolocate_rows geocode opts rows self).2)
  = duplicates (no_result_list self) + exhausted_rows geocode opts rows self.
Proof.
  revert self. induction rows as [|snips rows IH]; intros self; simpl; [lia|].
  destruct (geolocate_duplicates opts snips self) as [Hdup Hret].
  destruct (_geolocate geocode opts snips self) as [[la ln w|e] s1]; simpl in *.
  - specialize (IH s1).
    destruct (geolocate_rows geocode opts rows s1) as [[written e] s2].
    simpl in *. lia.
  - destruct (exhausted geocode opts snips self); [|lia].
    by destruct Hret as [w ?].
Qed.

(** X10.  Whatever the negative cache holds, a call to [_geolocate] adds
    exactly one duplicate entry to it when the row is exhausted (after the
    loop, the last candidate, which the list holds by then, is appended once
    more, and the call returns [(nan, nan)] with warnings that end in
    ["Search Failed!;"]) and none otherwise. *)
Theorem one_duplicate_on_exhaustion opts snips self :
  duplicates (no_result_list (_geolocate geocode opts snips self).2)
  = duplicates (no_result_list self)
    + (if exhausted geocode opts snips self then 1 else 0)
  ∧ (exhausted geocode opts snips self = true →
     ∃ addrs a s_end w,
       composed_addresses (search_depth opts) snips = Some addrs
       ∧ list.last addrs = Some a
       ∧ _geolocate geocode opts snips self
         = (Returned nan nan (w +:+ "Search Failed!;"), record_failure s_end a)
       ∧ a ∈ no_result_list s_end).
Proof.
  pose proof (geolocate_exhausted opts snips self) as H.
  destruct (exhausted geocode opts snips self).
  - destruct H as (addrs & a & s_end & w_end & Hc & Hl & _ & Hrun & Ha & Hdup).
    split.
    + rewrite Hrun. simpl. rewrite duplicates_snoc, bool_decide_eq_true_2 by done. lia.
    + intros _. by exists addrs, a, s_end, w_end.
  - split; [lia|done].
Qed.

(** C8, as the code has it.  Starting from a negative cache without
    duplicates, after any run of calls to [_geolocate] the negative cache
    holds exactly one duplicate entry for each exhausted row, and so none
    when no row was exhausted: inside the loop an address is appended only
    when the list does not hold it, and an exhausted row appends its last
    candidate once more after the loop. *)
Theorem duplicates_per_exhausted_row opts rows self :
  NoDup (no_result_list self) →
  duplicates (no_result_list (geolocate_rows geocode opts rows self).2)
  = exhausted_rows geocode opts rows self
  ∧ (exhausted_rows geocode opts rows self = 0 →
     NoDup (no_result_list (geolocate_rows geocode opts rows self).2))
  ∧ (∀ snips,
       if exhausted geocode opts snips self then
         ∃ l a w self1,
           _geolocate geocode opts snips self
           = (Returned nan nan (w +:+ "Search Failed!;"), self1)
           ∧ no_result_list self1 = (l ++ [a])%list
           ∧ NoDup l ∧ a ∈ l
       else NoDup (no_result_list (_geolocate geocode opts snips self).2)).
Proof.
  intros Hnd%duplicates_NoDup.
  pose proof (rows_duplicates opts rows self) as Hrows. rewrite Hnd in Hrows.
  split_and!.
  - done.
  - intros H0. apply duplicates_NoDup. lia.
  - intros snips. pose proof (geolocate_exhausted opts snips self) as H.
    destruct (exhausted geocode opts snips self).
    + destruct H as (addrs & a & s_end & w_end & _ & _ & _ & Hrun & Ha & Hdup).
      exists (no_result_list s_end), a, w_end, (record_failure s_end a).
      split_and!; [done..| |done]. apply duplicates_NoDup. lia.
    + apply duplicates_NoDup. lia.
Qed.

(** *** A whole run *)

Lemma geolocate_grows opts snips self :
  grows self (_geolocate geocode opts snips self).2.
Proof.
  unfold _geolocate. destruct (composed_addresses _ _); simpl.
  - apply attempts_grows.
  - apply grows_refl.
Qed.

Lemma geolocate_asked opts snips self :
  ∃ qs,
    queries (_geolocate geocode opts snips self).2 = (queries self ++ qs)%list
    ∧ NoDup qs
    ∧ (∀ q, q ∈ qs → (q ∉ no_result_list self) ∧ discovered_addrs self !! q = None)
    ∧ (∀ la ln w, (_geolocate geocode opts snips self).1 = Returned la ln w →
         ∀ q, q ∈ qs →
           q ∈ no_result_list (_geolocate geocode opts snips self).2
           ∨ is_Some (discovered_addrs (_geolocate geocode opts snips self).2 !! q)).
Proof.
  unfold _geolocate.
  destruct (composed_addresses (search_depth opts) snips) as [addrs|]; simpl.
  - destruct (attempts_asked opts (length snips) 0 addrs None self "")
      as (qs & Hq & Hnd & _ & Hfresh & Hpost).
    exists qs. split_and!; [done..| |done].
    intros q Hin. by destruct (Hfresh q Hin) as (_ & ? & ?).
  - exists []. rewrite app_nil_r. split_and!; [done|apply NoDup_nil_2| |].
    + by intros q ?%elem_of_nil.
    + by intros la ln w' ?.
Qed.

Lemma rows_grow opts rows self :
  grows self (geolocate_rows geocode opts rows self).2.
Proof.
  revert self. induction rows as [|snips rows IH]; intros self; simpl.
  - apply grows_refl.
  - pose proof (geolocate_grows opts snips self) as Hg.
    destruct (_geolocate geocode opts snips self) as [[la ln w|e] s1]; simpl in *; [|done].
    specialize (IH s1).
    destruct (geolocate_rows geocode opts rows s1) as [[written e] s2]. simpl in *.
    by eapply grows_trans.
Qed.

Lemma rows_disjoint opts rows self :
  caches_disjoint self →
  caches_disjoint (geolocate_rows geocode opts rows self).2.
Proof.
  revert self. induction rows as [|snips rows IH]; intros self Hdis; simpl; [done|].
  pose proof (geolocate_disjoint opts snips self Hdis) as Hd.
  destruct (_geolocate geocode opts snips self) as [[la ln w|e] s1]; simpl in *; [|done].
  specialize (IH s1 Hd).
  by destruct (geolocate_rows geocode opts rows s1) as [[written e] s2].
Qed.

(** X11.  Over a whole run of rows, finished or cut short by an exception,
    both caches only grow (every positive entry keeps its coordinates), and
    caches that had no address in common still have none. *)
Theorem run_keeps_caches opts rows self :
  (∀ a c, discovered_addrs self !! a = Some c →
          discovered_addrs (geolocate_rows geocode opts rows self).2 !! a = Some c)
  ∧ no_result_list self `prefix_of` no_result_list (geolocate_rows geocode opts rows self).2
  ∧ (caches_disjoint self →
     caches_disjoint (geolocate_rows geocode opts rows self).2).
Proof.
  destruct (rows_grow opts rows self) as (Hd & Hn & _). split_and!.
  - intros a c Ha. by eapply lookup_weaken.
  - done.
  - apply rows_disjoint.
Qed.

(** X12.  In a run of rows no address is sent to the provider twice, and
    none that one of the caches held when the run started. *)
Theorem run_asks_once opts rows self :
  ∃ qs,
    queries (geolocate_rows geocode opts rows self).2 = (queries self ++ qs)%list
    ∧ NoDup qs
    ∧ ∀ q, q ∈ qs → (q ∉ no_result_list self) ∧ discovered_addrs self !! q = None.
Proof.
  revert self. induction rows as [|snips rows IH]; intros self; simpl.
  - exists []. rewrite app_nil_r. split_and!; [done|apply NoDup_nil_2|].
    by intros q ?%elem_of_nil.
  - destruct (geolocate_asked opts snips self) as (qs1 & Hq1 & Hnd1 & Hfresh1 & Hpost1).
    pose proof (geolocate_grows opts snips self) as (Hd & [l Hl] & _).
    destruct (_geolocate geocode opts snips self) as [[la ln w|e] s1]; simpl in *.
    + destruct (IH s1) as (qs2 & Hq2 & Hnd2 & Hfresh2).
      destruct (geolocate_rows geocode opts rows s1) as [[written e] s2]. simpl in *.
      exists (qs1 ++ qs2)%list. split_and!.
      * by rewrite Hq2, Hq1, <-app_assoc.
      * apply NoDup_app. split_and!; [done| |done].
        intros q Hin1 Hin2. destruct (Hfresh2 q Hin2) as [Hn Hnone].
        destruct (Hpost1 la ln w eq_refl q Hin1) as [?|[c Hc]]; [done|congruence].
      * intros q [Hin|Hin]%elem_of_app; [by apply Hfresh1|].
        destruct (Hfresh2 q Hin) as [Hn Hnone]. split.
        -- intros Hq. apply Hn. rewrite Hl. apply elem_of_app. by left.
        -- destruct (discovered_addrs self !! q) as [c|] eqn:Hc; [|done].
           by rewrite (lookup_weaken _ _ _ _ Hc Hd) in Hnone.
    + by exists qs1.
Qed.

Lemma out_cells_spec (la ln : float) (w : string) :
  out_cells la ln w = (Dash, Dash, w) ∧ (is_nan la = true ∨ is_nan ln = true)
  ∨ out_cells la ln w = (Num la, Num ln, w) ∧ is_nan la = false ∧ is_nan ln = false.
Proof.
  unfold out_cells. destruct (is_nan la), (is_nan ln); simpl; auto.
Qed.

(** X13.  A run writes one row for each input row until an exception leaves
    [_geolocate]: all of them when there is none, fewer otherwise; in every
    row written the two coordinate cells are both ['-'] or both numbers that
    are not NaN. *)
Theorem run_written_rows opts rows self :
  ((geolocate_rows geocode opts rows self).1.2 = None →
     length (geolocate_rows geocode opts rows self).1.1 = length rows)
  ∧ (is_Some (geolocate_rows geocode opts rows self).1.2 →
     length (geolocate_rows geocode opts rows self).1.1 < length rows)
  ∧ Forall (λ cells,
        cells.1 = (Dash, Dash)
        ∨ ∃ la ln, cells.1 = (Num la, Num ln)
                   ∧ is_nan la = false ∧ is_nan ln = false)
      (geolocate_rows geocode opts rows self).1.1.
Proof.
  revert self. induction rows as [|snips rows IH]; intros self; simpl.
  - split_and!; [done|by intros [? ?]|constructor].
  - destruct (_geolocate geocode opts snips self) as [[la ln w|e] s1]; simpl.
    + destruct (IH s1) as (Hall & Hcut & Hcells).
      destruct (geolocate_rows geocode opts rows s1) as [[written e] s2]. simpl in *.
      split_and!.
      * intros He. by rewrite Hall.
      * intros He. apply Hcut in He. lia.
      * constructor; [|done].
        destruct (out_cells_spec la ln w) as [[-> _]|(-> & ? & ?)]; simpl;
          [by left|right; by exists la, ln].
    + split_and!; [done|intros _; lia|constructor].
Qed.

End GeolocatorInvariants.

(** ** The rows of the CSV file *)

Section RowFacts.

Variable strip lower : string → string.
Context {world : Type}.
Variable geocode : string → gmaps_kwargs → world → response * world.
Implicit Types (self : geolocator world) (opts : search_options).
Implicit Types (row : gmap (option string) pyval) (order : list string).

Lemma collect_snips_app order rest row acc :
  (∀ k, k ∈ order → ∃ s, row !! Some k = Some (PyStr s)) →
  ∃ acc',
    collect_snips strip lower (order ++ rest) row acc
    = collect_snips strip lower rest row acc'
    ∧ length acc' ≤ length acc + length order
    ∧ ((∀ k s, k ∈ order → row !! Some k = Some (PyStr s) →
               strip s ∈ EMPTY_COLUMN_CHARACTERS) → acc' = acc).
Proof.
  revert acc. induction order as [|key keys IH]; intros acc Hstr.
  - exists acc. split_and!; [done|simpl; lia|done].
  - destruct (Hstr key) as [s Hs]; [by left|].
    assert (∀ k, k ∈ keys → ∃ s, row !! Some k = Some (PyStr s)) as Hkeys.
    { intros k ?. apply Hstr. by right. }
    simpl. rewrite Hs. case_bool_decide as Hempty.
    + destruct (IH acc Hkeys) as (acc' & Heq & Hlen & Hsame).
      exists acc'. split_and!; [done|lia|].
      intros Hall. apply Hsame. intros k s' ? ?. eapply Hall; [by right|done].
    + destruct (IH (acc ++ [lower (strip s)])%list Hkeys) as (acc' & Heq & Hlen & _).
      exists acc'. split_and!; [done|rewrite length_app in Hlen; simpl in Hlen; lia|].
      intros Hall. destruct Hempty. eapply Hall; [by left|done].
Qed.

Lemma collect_snips_length order row snips :
  collect_snips strip lower order row [] = inr snips → length snips ≤ length order.
Proof.
  assert (∀ acc, collect_snips strip lower order row acc = inr snips →
                 length snips ≤ length acc + length order) as Hgen.
  { induction order as [|key keys IH]; intros acc; simpl.
    - intros [= <-]. lia.
    - destruct (row !! Some key) as [[s| | |]|]; try done.
      case_bool_decide.
      + intros ?%IH. lia.
      + intros ?%IH. rewrite length_app in *. simpl in *. lia. }
  intros ?%Hgen. simpl in *. lia.
Qed.

(** X14.  The first searched column that the row lacks, or whose value is
    not text, ends the row loop: [KeyError] for an absent column,
    [AttributeError] otherwise, before anything is asked of the provider or
    written to the caches. *)
Theorem bad_column_raises opts pre key post row self :
  (∀ k, k ∈ pre → ∃ s, row !! Some k = Some (PyStr s)) →
  (∀ s, row !! Some key ≠ Some (PyStr s)) →
  geolocate_row strip lower geocode opts (pre ++ key :: post) row self
  = (inl (match row !! Some key with
          | None => KeyError key
          | Some _ => AttributeError "strip"
          end), self).
Proof.
  intros Hpre Hkey. unfold geolocate_row.
  destruct (collect_snips_app pre (key :: post) (delete None row) [])
    as (acc & -> & _).
  { intros k Hk. rewrite lookup_delete_ne by done. by apply Hpre. }
  simpl. rewrite lookup_delete_ne by done.
  destruct (row !! Some key) as [[s| | |]|]; try done. by destruct (Hkey s).
Qed.

(** X15.  A row in which every searched column holds an empty marker (["-"],
    [" "] or [""] once stripped) has no snippet, and the row loop ends in the
    [UnboundLocalError] of [_geolocate]. *)
Theorem empty_markers_abort opts order row self :
  (∀ k, k ∈ order →
        ∃ s, row !! Some k = Some (PyStr s) ∧ strip s ∈ EMPTY_COLUMN_CHARACTERS) →
  geolocate_row strip lower geocode opts order row self
  = (inl (FromGeolocate (UnboundLocalError "attempted_address")), self).
Proof.
  intros Hall. unfold geolocate_row.
  destruct (collect_snips_app order [] (delete None row) [])
    as (acc & Heq & _ & Hsame).
  { intros k Hk. destruct (Hall k Hk) as (s & Hs & _).
    exists s. by rewrite lookup_delete_ne. }
  rewrite app_nil_r in Heq. rewrite Heq, Hsame; simpl.
  - unfold _geolocate. by rewrite composed_addresses_nil.
  - intros k s Hk. rewrite lookup_delete_ne by done. intros Hs.
    destruct (Hall k Hk) as (s' & Hs' & ?). by simplify_eq.
Qed.

Lemma update_row_spec row la ln w :
  update_row row la ln w !! Some "warnings" = Some (PyStr w)
  ∧ (∀ k, k ≠ Some "lat" → k ≠ Some "lng" → k ≠ Some "warnings" →
          update_row row la ln w !! k = row !! k)
  ∧ ((update_row row la ln w !! Some "lat" = Some (PyStr "-")
      ∧ update_row row la ln w !! Some "lng" = Some (PyStr "-"))
     ∨ (update_row row la ln w !! Some "lat" = Some (PyFloat la)
        ∧ update_row row la ln w !! Some "lng" = Some (PyFloat ln)
        ∧ is_nan la = false ∧ is_nan ln = false)).
Proof.
  unfold update_row.
  destruct (is_nan la) eqn:Hla, (is_nan ln) eqn:Hln; simpl;
    (split_and!;
     [by rewrite lookup_insert_eq
     |by intros k ? ? ?; rewrite !lookup_insert_ne
     |]).
  1-3: left; split; by simplify_map_eq.
  right. split_and!; [by simplify_map_eq..|done|done].
Qed.

(** X16.  A row handed to the writer has lost the key [None], keeps every
    other column of the input row except [lat], [lng] and [warnings], which
    are overwritten, holds the warnings as text, and holds in [lat] and [lng]
    either ['-'] twice or two numbers that are not NaN. *)
Theorem written_row_columns opts order row self out_row self1 :
  geolocate_row strip lower geocode opts order row self = (inr out_row, self1) →
  out_row !! None = None
  ∧ (∀ k, k ≠ "lat" → k ≠ "lng" → k ≠ "warnings" →
          out_row !! Some k = row !! Some k)
  ∧ (∃ w, out_row !! Some "warnings" = Some (PyStr w))
  ∧ ((out_row !! Some "lat" = Some (PyStr "-")
      ∧ out_row !! Some "lng" = Some (PyStr "-"))
     ∨ ∃ la ln,
         out_row !! Some "lat" = Some (PyFloat la)
         ∧ out_row !! Some "lng" = Some (PyFloat ln)
         ∧ is_nan la = false ∧ is_nan ln = false).
Proof.
  unfold geolocate_row.
  destruct (collect_snips strip lower order (delete None row) []) as [e|snips]; [done|].
  destruct (_geolocate geocode opts snips self) as [[la ln w|e] s1]; [|done].
  intros [= <- <-].
  destruct (update_row_spec (delete None row) la ln w) as (Hw & Hother & Hcells).
  split_and!.
  - rewrite Hother by done. apply lookup_delete_eq.
  - intros k ? ? ?. rewrite Hother by congruence. by rewrite lookup_delete_ne.
  - by exists w.
  - destruct Hcells as [?|(? & ? & ? & ?)]; [by left|right; by exists la, ln].
Qed.

(** X17.  When the snippets of every row can be collected, the row loop
    over the rows does to the caches and the provider what the loop over
    their snippet lists does, ends in the same exception if any, and writes
    as many rows. *)
Theorem csv_run_is_rows_run opts order rows sniplists self :
  Forall2 (λ row snips,
      collect_snips strip lower order (delete None row) [] = inr snips)
    rows sniplists →
  (geolocate_csv strip lower geocode opts order rows self).2
  = (geolocate_rows geocode opts sniplists self).2
  ∧ (geolocate_csv strip lower geocode opts order rows self).1.2
    = FromGeolocate <$> (geolocate_rows geocode opts sniplists self).1.2
  ∧ length (geolocate_csv strip lower geocode opts order rows self).1.1
    = length (geolocate_rows geocode opts sniplists self).1.1.
Proof.
  intros Hall. revert self.
  induction Hall as [|row snips rows sniplists Hrow _ IH]; intros self; simpl; [done|].
  unfold geolocate_row. rewrite Hrow.
  destruct (_geolocate geocode opts snips self) as [[la ln w|e] s1]; [|done].
  specialize (IH s1).
  destruct (geolocate_csv strip lower geocode opts order rows s1) as [[written e] s2].
  destruct (geolocate_rows geocode opts sniplists s1) as [[written' e'] s2'].
  simpl in *. destruct IH as (-> & -> & ->). done.
Qed.

(** X18.  A row is resolved with at most as many snippets as there are
    searched columns, so the provider is asked at most [2^K - 1] times for
    it, [K] being the number of searched columns, and never twice about the
    same address. *)
Theorem row_provider_bound opts order row self :
  ∃ qs,
    queries (geolocate_row strip lower geocode opts order row self).2
    = (queries self ++ qs)%list
    ∧ NoDup qs
    ∧ S (length qs) ≤ 2 ^ length order.
Proof.
  unfold geolocate_row.
  destruct (collect_snips strip lower order (delete None row) []) as [e|snips] eqn:Hs.
  - exists []. rewrite app_nil_r. split_and!; [done|apply NoDup_nil_2|].
    simpl. pose proof (Nat.pow_nonzero 2 (length order)). lia.
  - apply collect_snips_length in Hs.
    destruct (composed_addresses_total (search_depth opts) snips) as (tuples & Hc & _).
    destruct (attempts_asked geocode opts (length snips) 0
                (String.concat ", " <$> tuples) None self "")
      as (qs & Hq & Hnd & Hlen & _).
    assert (queries (_geolocate geocode opts snips self).2 = (queries self ++ qs)%list)
      as Hq'.
    { unfold _geolocate. by rewrite Hc. }
    exists qs. split_and!.
    + by destruct (_geolocate geocode opts snips self) as [[la ln w|e] s1].
    + done.
    + pose proof (length_composed_addresses _ _ _ Hc) as Hcount.
      pose proof (count_combinations_bound snips (S (Z.to_nat (search_depth opts)))).
      pose proof (Nat.pow_le_mono_r 2 (length snips) (length order)). lia.
Qed.

End RowFacts.

(** ** The further properties on sample rows *)

Lemma depth_nonpositive_raises_witness :
  _geolocate no_results (opts_depth 0) ["fokino"; "orjol"] fresh
  = (Raised (UnboundLocalError "attempted_address"), fresh).
Proof.
  apply (depth_nonpositive_raises no_results (opts_depth 0) ["fokino"; "orjol"] fresh).
  simpl. lia.
Defined.

Lemma no_fallback_on_short_rows_witness :
  warn_fallback 2 1 (no_result_warning "fokino") = no_result_warning "fokino".
Proof.
  apply (no_fallback_on_short_rows no_results (opts_depth 1) ["fokino"; "orjol"]
           fresh 1 "orjol" (record_failure (called fresh "fokino" ()) "fokino")
           (no_result_warning "fokino")).
  - left. reflexivity.
  - exists ["fokino"; "orjol"]. split_and!; vm_compute; reflexivity.
Defined.

Lemma caches_stay_disjoint_witness :
  caches_disjoint
    (_geolocate (only_knows "b" paris) (opts_depth 2) ["a"; "b"] ab_failed).2.
Proof.
  apply (caches_stay_disjoint (only_knows "b" paris) (opts_depth 2) ["a"; "b"] ab_failed).
  intros a _. apply lookup_empty.
Defined.

Lemma answer_from_first_resolvable_witness :
  ∃ addrs,
    composed_addresses 3 ["a"; "b"; "c"] = Some addrs
    ∧ ((∃ k a,
          addrs !! k = Some a
          ∧ discovered_addrs
              (_geolocate (only_knows "b" paris) (opts_depth 3) ["a"; "b"; "c"] fresh).2
            !! a = Some (48.5%float, 2.25%float)
          ∧ ∀ j b, j < k → addrs !! j = Some b →
              b ∈ no_result_list
                    (_geolocate (only_knows "b" paris) (opts_depth 3)
                       ["a"; "b"; "c"] fresh).2)
       ∨ (48.5%float = nan ∧ 2.25%float = nan ∧ addrs ≠ []
          ∧ ∀ b, b ∈ addrs →
              b ∈ no_result_list
                    (_geolocate (only_knows "b" paris) (opts_depth 3)
                       ["a"; "b"; "c"] fresh).2)).
Proof.
  apply (answer_from_first_resolvable (only_knows "b" paris) (opts_depth 3)
           ["a"; "b"; "c"] fresh 48.5%float 2.25%float
           ("No result found for 'a'; No result found for 'a, b'; "
            +:+ "No result found for 'a, c'; No result found for 'a, b, c'; ")).
  vm_compute. reflexivity.
Defined.

Lemma duplicates_per_exhausted_row_witness :
  duplicates (no_result_list
                (geolocate_rows (only_knows "fokino" paris) (opts_depth 1)
                   [["x"]; ["fokino"]; ["x"]] fresh).2)
  = exhausted_rows (only_knows "fokino" paris) (opts_depth 1)
      [["x"]; ["fokino"]; ["x"]] fresh
  ∧ (exhausted_rows (only_knows "fokino" paris) (opts_depth 1)
       [["x"]; ["fokino"]; ["x"]] fresh = 0 →
     NoDup (no_result_list
              (geolocate_rows (only_knows "fokino" paris) (opts_depth 1)
                 [["x"]; ["fokino"]; ["x"]] fresh).2))
  ∧ (∀ snips,
       if exhausted (only_knows "fokino" paris) (opts_depth 1) snips fresh then
         ∃ l a w self1,
           _geolocate (only_knows "fokino" paris) (opts_depth 1) snips fresh
           = (Returned nan nan (w +:+ "Search Failed!;"), self1)
           ∧ no_result_list self1 = (l ++ [a])%list
           ∧ NoDup l ∧ a ∈ l
       else NoDup (no_result_list
                     (_geolocate (only_knows "fokino" paris) (opts_depth 1)
                        snips fresh).2)).
Proof.
  apply (duplicates_per_exhausted_row (only_knows "fokino" paris) (opts_depth 1)
           [["x"]; ["fokino"]; ["x"]] fresh).
  apply NoDup_nil_2.
Defined.

Lemma bad_column_raises_witness :
  geolocate_row strip_ascii lower_ascii no_results (opts_depth 1)
    (["city"] ++ "country" :: ["region"]) sample_row fresh
  = (inl (match sample_row !! Some "country" with
          | None => KeyError "country"
          | Some _ => AttributeError "strip"
          end), fresh).
Proof.
  apply (bad_column_raises strip_ascii lower_ascii no_results (opts_depth 1)
           ["city"] "country" ["region"] sample_row fresh).
  - intros k ->%list_elem_of_singleton. eexists. vm_compute. reflexivity.
  - intros s. vm_compute. discriminate.
Defined.

Lemma empty_markers_abort_witness :
  geolocate_row strip_ascii lower_ascii no_results (opts_depth 1)
    ["region"] sample_row fresh
  = (inl (FromGeolocate (UnboundLocalError "attempted_address")), fresh).
Proof.
  apply (empty_markers_abort strip_ascii lower_ascii no_results (opts_depth 1)
           ["region"] sample_row fresh).
  intros k ->%list_elem_of_singleton. exists " - ". split.
  - vm_compute. reflexivity.
  - apply (bool_decide_unpack _). vm_compute. reflexivity.
Defined.

Lemma written_row_columns_witness :
  update_row (delete None sample_row) 48.5 2.25 "" !! None = None
  ∧ (∀ k, k ≠ "lat" → k ≠ "lng" → k ≠ "warnings" →
          update_row (delete None sample_row) 48.5 2.25 "" !! Some k
          = sample_row !! Some k)
  ∧ (∃ w, update_row (delete None sample_row) 48.5 2.25 "" !! Some "warnings"
          = Some (PyStr w))
  ∧ ((update_row (delete None sample_row) 48.5 2.25 "" !! Some "lat"
      = Some (PyStr "-")
      ∧ update_row (delete None sample_row) 48.5 2.25 "" !! Some "lng"
        = Some (PyStr "-"))
     ∨ ∃ la ln,
         update_row (delete None sample_row) 48.5 2.25 "" !! Some "lat"
         = Some (PyFloat la)
         ∧ update_row (delete None sample_row) 48.5 2.25 "" !! Some "lng"
           = Some (PyFloat ln)
         ∧ is_nan la = false ∧ is_nan ln = false).
Proof.
  apply (written_row_columns strip_ascii lower_ascii (only_knows "fokino" paris)
           (opts_depth 1) ["city"; "region"] sample_row fresh
           (update_row (delete None sample_row) 48.5 2.25 "")
           (geolocate_row strip_ascii lower_ascii (only_knows "fokino" paris)
              (opts_depth 1) ["city"; "region"] sample_row fresh).2).
  vm_compute. reflexivity.
Defined.

Lemma csv_run_is_rows_run_witness :
  (geolocate_csv strip_ascii lower_ascii no_results (opts_depth 1)
     ["city"; "region"] [sample_row] fresh).2
  = (geolocate_rows no_results (opts_depth 1) [["fokino"]] fresh).2
  ∧ (geolocate_csv strip_ascii lower_ascii no_results (opts_depth 1)
       ["city"; "region"] [sample_row] fresh).1.2
    = FromGeolocate <$> (geolocate_rows no_results (opts_depth 1) [["fokino"]] fresh).1.2
  ∧ length (geolocate_csv strip_ascii lower_ascii no_results (opts_depth 1)
              ["city"; "region"] [sample_row] fresh).1.1
    = length (geolocate_rows no_results (opts_depth 1) [["fokino"]] fresh).1.1.
Proof.
  apply (csv_run_is_rows_run strip_ascii lower_ascii no_results (opts_depth 1)
           ["city"; "region"] [sample_row] [["fokino"]] fresh).
  constructor; [vm_compute; reflexivity|constructor].
Defined.
